(** * your-ai-ally: the browser-session client, embedded and checked

    The development follows the TypeScript / Svelte sources:

    - [Js]           string primitives of the platform used by the
                     sources ([trim], [startsWith], [includes],
                     truthiness) and the fragment of regular expressions
                     the two patterns of the command registry need;
    - [Store]        [lib/stores/browserStore]: the writable stores, the
                     WebSocket handlers and the REST calls;
    - [Outcome], [Update]  the types of [app.d.ts];
    - [Commands]     the command registry ([isValidUrl], [navigateToURL],
                     [runAgent]);
    - [AgentMessage] [messages/agent.svelte]: one mounted agent message
                     and its subscription to the [updates] store;
    - [Input]        the command input component ([submitAction],
                     [handleKeydown], the Send button);
    - [Panel]        the control panel of [browser.svelte];
    - [Session]      the store module next to a mounted agent message.

    Strings are [string]s whose characters are code units below 256.
    Asynchronous functions are split at their [await]: the outcome of the
    awaited call is an argument of the model.  The properties come after
    the definitions, one module of facts per subject. *)

From Stdlib Require Import String Ascii List ZArith Bool Lia Arith PeanoNat.
Import ListNotations.

Local Open Scope string_scope.
Local Open Scope list_scope.

(* ------------------------------------------------------------------ *)
(** ** Platform primitives *)

Module Js.

(** [!s] on a string: only the empty string is falsy. *)
Definition truthy (s : string) : bool :=
  match s with
  | EmptyString => false
  | String _ _ => true
  end.

Definition startsWith (s p : string) : bool := String.prefix p s.

(** [s.includes(c)] for a one-character needle. *)
Fixpoint includes_char (c : ascii) (s : string) : bool :=
  match s with
  | EmptyString => false
  | String d s' => Ascii.eqb c d || includes_char c s'
  end.

(** White space and line terminators of [String.prototype.trim] among
    the code units below 256: TAB, LF, VT, FF, CR, SPACE and NBSP. *)
Definition is_space (c : ascii) : bool :=
  let n := nat_of_ascii c in
  ((9 <=? n)%nat && (n <=? 13)%nat) || (n =? 32)%nat || (n =? 160)%nat.

Fixpoint trim_start (s : string) : string :=
  match s with
  | EmptyString => EmptyString
  | String c s' => if is_space c then trim_start s' else s
  end.

(** Drops the trailing white space: a character is kept when it is not
    a space or when something is kept after it. *)
Fixpoint trim_end (s : string) : string :=
  match s with
  | EmptyString => EmptyString
  | String c s' =>
      match trim_end s' with
      | EmptyString => if is_space c then EmptyString else String c EmptyString
      | t => String c t
      end
  end.

Definition trim (s : string) : string := trim_end (trim_start s).

(** [`${n}`] for an integer. *)
Fixpoint digits (fuel : nat) (n : nat) (acc : string) : string :=
  match fuel with
  | O => acc
  | S fuel' =>
      let d := ascii_of_nat (48 + n mod 10) in
      let acc' := String d acc in
      match n / 10 with
      | O => acc'
      | q => digits fuel' q acc'
      end
  end.

Definition string_of_nat (n : nat) : string := digits (S n) n EmptyString.

Definition string_of_Z (z : Z) : string :=
  match z with
  | Z0 => "0"
  | Zpos p => string_of_nat (Pos.to_nat p)
  | Zneg p => "-" ++ string_of_nat (Pos.to_nat p)
  end.

(** *** Regular expressions

    The fragment used by the sources: character classes, literal
    strings, concatenation, [?], bounded and unbounded repetition of a
    class, and the word-boundary assertion.  [RegExp.prototype.test]
    only asks whether a match exists, so the matcher explores every
    split and the order of the alternatives plays no role. *)

Inductive regex : Type :=
| Eps
| Sym (p : ascii -> bool)
| Cat (r1 r2 : regex)
| Opt (r : regex)
| Rep (p : ascii -> bool) (lo : nat) (hi : option nat)
| WordB.

Fixpoint Lit (s : string) : regex :=
  match s with
  | EmptyString => Eps
  | String c s' => Cat (Sym (Ascii.eqb c)) (Lit s')
  end.

Definition between (lo hi : nat) (c : ascii) : bool :=
  ((lo <=? nat_of_ascii c)%nat && (nat_of_ascii c <=? hi)%nat).

Definition lower (c : ascii) : bool := between 97 122 c.
Definition upper (c : ascii) : bool := between 65 90 c.
Definition digit (c : ascii) : bool := between 48 57 c.
Definition alnum (c : ascii) : bool := lower c || upper c || digit c.

Definition one_of (s : string) (c : ascii) : bool := includes_char c s.

(** [\w] is [[A-Za-z0-9_]]. *)
Definition word_char (c : ascii) : bool := alnum c || Ascii.eqb c "_".

Definition is_word (o : option ascii) : bool :=
  match o with
  | Some c => word_char c
  | None => false
  end.

Definition head (s : string) : option ascii :=
  match s with
  | EmptyString => None
  | String c _ => Some c
  end.

Definition room (hi : option nat) : bool :=
  match hi with
  | Some O => false
  | _ => true
  end.

Definition dec (hi : option nat) : option nat := option_map Nat.pred hi.

(** [p{lo,hi}] followed by the continuation [k]; [prev] is the
    character before the current position. *)
Fixpoint rep (p : ascii -> bool) (lo : nat) (hi : option nat)
         (prev : option ascii) (s : string)
         (k : option ascii -> string -> bool) : bool :=
  (match lo with O => k prev s | S _ => false end)
  || match s with
     | EmptyString => false
     | String c s' =>
         p c && room hi && rep p (Nat.pred lo) (dec hi) (Some c) s' k
     end.

Fixpoint exec (r : regex) (prev : option ascii) (s : string)
         (k : option ascii -> string -> bool) : bool :=
  match r with
  | Eps => k prev s
  | Sym p =>
      match s with
      | EmptyString => false
      | String c s' => p c && k (Some c) s'
      end
  | Cat r1 r2 => exec r1 prev s (fun prev' s' => exec r2 prev' s' k)
  | Opt r1 => exec r1 prev s k || k prev s
  | Rep p lo hi => rep p lo hi prev s k
  | WordB => xorb (is_word prev) (is_word (head s)) && k prev s
  end.

(** [/^r$/.test(s)] *)
Definition test_whole (r : regex) (s : string) : bool :=
  exec r None s (fun _ rest => match rest with EmptyString => true | _ => false end).

(** [/^r/.test(s)] *)
Definition test_prefix (r : regex) (s : string) : bool :=
  exec r None s (fun _ _ => true).

(** *** What a pattern can consume *)

(** [P] holds of every character of [s]. *)
Fixpoint all_chars (P : ascii -> bool) (s : string) : bool :=
  match s with
  | EmptyString => true
  | String c s' => P c && all_chars P s'
  end.

Definition true_class (c : ascii) : bool := true.

(** Every class of [r] lies within [P]. *)
Fixpoint within (P : ascii -> bool) (r : regex) : Prop :=
  match r with
  | Eps => True
  | Sym p => forall c, p c = true -> P c = true
  | Cat r1 r2 => within P r1 /\ within P r2
  | Opt r1 => within P r1
  | Rep p _ _ => forall c, p c = true -> P c = true
  | WordB => True
  end.

End Js.

(* ------------------------------------------------------------------ *)
(** ** lib/stores/browserStore *)

Module Store.

Inductive Phase : Set := idle | starting | running | stopping.

Inductive Origin : Set := System | Agent | User.

(** [WebSocket.readyState] *)
Inductive ReadyState : Set := CONNECTING | OPEN | CLOSING | CLOSED.

Inductive Toast : Set :=
| toast_error (message : string)
| toast_success (message : string).

(** The REST calls of the module, with the body they post. *)
Inductive Request : Set :=
| browser_start
| browser_stop
| browser_navigate (url : string)
| agent_run (prompt : string)
| streaming_set_fps (fps : Z).

(** What [await fetch(...)] followed by [await response.json()] gives:
    the parsed body, of which the sources read [message] only, or the
    error the [catch] clause receives.  [fetch] resolves for every
    answer of the server, whatever its HTTP status, and the sources do
    not look at the status: [Rejected] is a call that did not get an
    answer or whose body is not JSON. *)
Inductive Fetched : Set :=
| Resolved (message : string)
| Rejected (error : string).

(** A frame of the push channel as [onmessage] sees it after
    [JSON.parse]. *)
Inductive Frame : Set :=
| Malformed
| Screenshot (data url : string)
| Message (data : string)
| Pong
| Other (type : string).

(** The writable stores, the two module variables [socket] and
    [pingInterval], and what the module has done to its environment:
    the [WebSocket] objects it created ([socket] is an index into
    [sockets]), the intervals that are armed, the toasts shown, the
    REST calls issued and the sockets a ping frame was sent on.
    Interval handles are positive, as [setInterval] returns them. *)
Record World : Set := {
  connected : bool;
  messages : list string;
  browserScreenshot : string;
  isLoading : bool;
  browserStatus : Phase;
  urlInput : string;
  promptInput : string;
  fpsValue : Z;
  socket : option nat;
  pingInterval : option positive;
  sockets : list ReadyState;
  timers : list positive;
  timer_seq : positive;
  toasts : list Toast;
  requests : list Request;
  pings : list nat
}.

(** The module as it is loaded. *)
Definition init : World :=
  {| connected := false; messages := []; browserScreenshot := "";
     isLoading := false; browserStatus := idle;
     urlInput := "https://www.example.com";
     promptInput := "Tell me what's on this page"; fpsValue := 5%Z;
     socket := None; pingInterval := None; sockets := []; timers := [];
     timer_seq := 1%positive; toasts := []; requests := []; pings := [] |}.

Definition set_connected (v : bool) (w : World) : World :=
  {| connected := v; messages := messages w;
     browserScreenshot := browserScreenshot w; isLoading := isLoading w;
     browserStatus := browserStatus w; urlInput := urlInput w;
     promptInput := promptInput w; fpsValue := fpsValue w;
     socket := socket w; pingInterval := pingInterval w;
     sockets := sockets w; timers := timers w; timer_seq := timer_seq w;
     toasts := toasts w; requests := requests w; pings := pings w |}.

Definition set_messages (v : list string) (w : World) : World :=
  {| connected := connected w; messages := v;
     browserScreenshot := browserScreenshot w; isLoading := isLoading w;
     browserStatus := browserStatus w; urlInput := urlInput w;
     promptInput := promptInput w; fpsValue := fpsValue w;
     socket := socket w; pingInterval := pingInterval w;
     sockets := sockets w; timers := timers w; timer_seq := timer_seq w;
     toasts := toasts w; requests := requests w; pings := pings w |}.

Definition set_browserScreenshot (v : string) (w : World) : World :=
  {| connected := connected w; messages := messages w;
     browserScreenshot := v; isLoading := isLoading w;
     browserStatus := browserStatus w; urlInput := urlInput w;
     promptInput := promptInput w; fpsValue := fpsValue w;
     socket := socket w; pingInterval := pingInterval w;
     sockets := sockets w; timers := timers w; timer_seq := timer_seq w;
     toasts := toasts w; requests := requests w; pings := pings w |}.

Definition set_isLoading (v : bool) (w : World) : World :=
  {| connected := connected w; messages := messages w;
     browserScreenshot := browserScreenshot w; isLoading := v;
     browserStatus := browserStatus w; urlInput := urlInput w;
     promptInput := promptInput w; fpsValue := fpsValue w;
     socket := socket w; pingInterval := pingInterval w;
     sockets := sockets w; timers := timers w; timer_seq := timer_seq w;
     toasts := toasts w; requests := requests w; pings := pings w |}.

Definition set_browserStatus (v : Phase) (w : World) : World :=
  {| connected := connected w; messages := messages w;
     browserScreenshot := browserScreenshot w; isLoading := isLoading w;
     browserStatus := v; urlInput := urlInput w;
     promptInput := promptInput w; fpsValue := fpsValue w;
     socket := socket w; pingInterval := pingInterval w;
     sockets := sockets w; timers := timers w; timer_seq := timer_seq w;
     toasts := toasts w; requests := requests w; pings := pings w |}.

Definition set_urlInput (v : string) (w : World) : World :=
  {| connected := connected w; messages := messages w;
     browserScreenshot := browserScreenshot w; isLoading := isLoading w;
     browserStatus := browserStatus w; urlInput := v;
     promptInput := promptInput w; fpsValue := fpsValue w;
     socket := socket w; pingInterval := pingInterval w;
     sockets := sockets w; timers := timers w; timer_seq := timer_seq w;
     toasts := toasts w; requests := requests w; pings := pings w |}.

Definition set_promptInput (v : string) (w : World) : World :=
  {| connected := connected w; messages := messages w;
     browserScreenshot := browserScreenshot w; isLoading := isLoading w;
     browserStatus := browserStatus w; urlInput := urlInput w;
     promptInput := v; fpsValue := fpsValue w; socket := socket w;
     pingInterval := pingInterval w; sockets := sockets w;
     timers := timers w; timer_seq := timer_seq w; toasts := toasts w;
     requests := requests w; pings := pings w |}.

Definition set_fpsValue (v : Z) (w : World) : World :=
  {| connected := connected w; messages := messages w;
     browserScreenshot := browserScreenshot w; isLoading := isLoading w;
     browserStatus := browserStatus w; urlInput := urlInput w;
     promptInput := promptInput w; fpsValue := v; socket := socket w;
     pingInterval := pingInterval w; sockets := sockets w;
     timers := timers w; timer_seq := timer_seq w; toasts := toasts w;
     requests := requests w; pings := pings w |}.

Definition set_socket (v : option nat) (w : World) : World :=
  {| connected := connected w; messages := messages w;
     browserScreenshot := browserScreenshot w; isLoading := isLoading w;
     browserStatus := browserStatus w; urlInput := urlInput w;
     promptInput := promptInput w; fpsValue := fpsValue w; socket := v;
     pingInterval := pingInterval w; sockets := sockets w;
     timers := timers w; timer_seq := timer_seq w; toasts := toasts w;
     requests := requests w; pings := pings w |}.

Definition set_pingInterval (v : option positive) (w : World) : World :=
  {| connected := connected w; messages := messages w;
     browserScreenshot := browserScreenshot w; isLoading := isLoading w;
     browserStatus := browserStatus w; urlInput := urlInput w;
     promptInput := promptInput w; fpsValue := fpsValue w;
     socket := socket w; pingInterval := v; sockets := sockets w;
     timers := timers w; timer_seq := timer_seq w; toasts := toasts w;
     requests := requests w; pings := pings w |}.

Definition set_sockets (v : list ReadyState) (w : World) : World :=
  {| connected := connected w; messages := messages w;
     browserScreenshot := browserScreenshot w; isLoading := isLoading w;
     browserStatus := browserStatus w; urlInput := urlInput w;
     promptInput := promptInput w; fpsValue := fpsValue w;
     socket := socket w; pingInterval := pingInterval w; sockets := v;
     timers := timers w; timer_seq := timer_seq w; toasts := toasts w;
     requests := requests w; pings := pings w |}.

Definition set_timers (v : list positive) (w : World) : World :=
  {| connected := connected w; messages := messages w;
     browserScreenshot := browserScreenshot w; isLoading := isLoading w;
     browserStatus := browserStatus w; urlInput := urlInput w;
     promptInput := promptInput w; fpsValue := fpsValue w;
     socket := socket w; pingInterval := pingInterval w;
     sockets := sockets w; timers := v; timer_seq := timer_seq w;
     toasts := toasts w; requests := requests w; pings := pings w |}.

Definition set_timer_seq (v : positive) (w : World) : World :=
  {| connected := connected w; messages := messages w;
     browserScreenshot := browserScreenshot w; isLoading := isLoading w;
     browserStatus := browserStatus w; urlInput := urlInput w;
     promptInput := promptInput w; fpsValue := fpsValue w;
     socket := socket w; pingInterval := pingInterval w;
     sockets := sockets w; timers := timers w; timer_seq := v;
     toasts := toasts w; requests := requests w; pings := pings w |}.

Definition set_toasts (v : list Toast) (w : World) : World :=
  {| connected := connected w; messages := messages w;
     browserScreenshot := browserScreenshot w; isLoading := isLoading w;
     browserStatus := browserStatus w; urlInput := urlInput w;
     promptInput := promptInput w; fpsValue := fpsValue w;
     socket := socket w; pingInterval := pingInterval w;
     sockets := sockets w; timers := timers w; timer_seq := timer_seq w;
     toasts := v; requests := requests w; pings := pings w |}.

Definition set_requests (v : list Request) (w : World) : World :=
  {| connected := connected w; messages := messages w;
     browserScreenshot := browserScreenshot w; isLoading := isLoading w;
     browserStatus := browserStatus w; urlInput := urlInput w;
     promptInput := promptInput w; fpsValue := fpsValue w;
     socket := socket w; pingInterval := pingInterval w;
     sockets := sockets w; timers := timers w; timer_seq := timer_seq w;
     toasts := toasts w; requests := v; pings := pings w |}.

Definition set_pings (v : list nat) (w : World) : World :=
  {| connected := connected w; messages := messages w;
     browserScreenshot := browserScreenshot w; isLoading := isLoading w;
     browserStatus := browserStatus w; urlInput := urlInput w;
     promptInput := promptInput w; fpsValue := fpsValue w;
     socket := socket w; pingInterval := pingInterval w;
     sockets := sockets w; timers := timers w; timer_seq := timer_seq w;
     toasts := toasts w; requests := requests w; pings := v |}.

(** *** addMessage *)

Definition toast (t : Toast) (w : World) : World :=
  set_toasts (toasts w ++ [t]) w.

Definition addMessage (from : Origin) (message : string) (error : bool)
           (w : World) : World :=
  let w1 :=
    match from with
    | System =>
        if error then toast (toast_error message) w
        else toast (toast_success message) w
    | _ => w
    end in
  set_messages (messages w1 ++ [message]) w1.

(** *** The push channel *)

Definition readyState (w : World) (i : nat) : option ReadyState :=
  nth_error (sockets w) i.

(** [socket?.readyState === WebSocket.OPEN] *)
Definition socket_is_open (w : World) : bool :=
  match socket w with
  | Some i =>
      match readyState w i with
      | Some OPEN => true
      | _ => false
      end
  | None => false
  end.

Fixpoint set_nth {A : Type} (i : nat) (x : A) (l : list A) : list A :=
  match l, i with
  | [], _ => []
  | _ :: t, O => x :: t
  | a :: t, S j => a :: set_nth j x t
  end.

(** [new WebSocket(socketUrl)]: a fresh object, still connecting. *)
Definition new_WebSocket (w : World) : nat * World :=
  (length (sockets w), set_sockets (sockets w ++ [CONNECTING]) w).

(** [s.close()]: starts the closing handshake unless it is under way
    or over. *)
Definition close (i : nat) (w : World) : World :=
  match readyState w i with
  | Some CONNECTING | Some OPEN => set_sockets (set_nth i CLOSING (sockets w)) w
  | _ => w
  end.

Definition send (i : nat) (w : World) : World :=
  set_pings (pings w ++ [i]) w.

Definition setInterval (w : World) : positive * World :=
  let h := timer_seq w in
  (h, set_timer_seq (Pos.succ h) (set_timers (timers w ++ [h]) w)).

Definition clearInterval (h : positive) (w : World) : World :=
  set_timers (remove Pos.eq_dec h (timers w)) w.

Definition connectWebSocket (w : World) : World :=
  if socket_is_open w then w
  else
    let (i, w1) := new_WebSocket w in
    set_socket (Some i) w1.

(** The callback given to [setInterval] in [onopen]. *)
Definition ping_tick (w : World) : World :=
  if socket_is_open w then
    match socket w with
    | Some i => send i w
    | None => w
    end
  else
    match pingInterval w with
    | Some h => clearInterval h w
    | None => w
    end.

Definition onopen (w : World) : World :=
  let w1 := set_connected true w in
  let w2 := addMessage System "Connected to server" false w1 in
  let (h, w3) := setInterval w2 in
  set_pingInterval (Some h) w3.

Definition onmessage (f : Frame) (w : World) : World :=
  match f with
  | Screenshot data url =>
      let w1 := set_browserScreenshot ("data:image/png;base64," ++ data) w in
      let w2 := set_urlInput url w1 in
      set_isLoading false w2
  | Message data => addMessage Agent data false w
  | Pong => w
  | Other _ => w
  | Malformed => w
  end.

Definition onclose (w : World) : World :=
  let w1 := set_connected false w in
  match pingInterval w1 with
  | Some h => set_pingInterval None (clearInterval h w1)
  | None => w1
  end.

Definition onerror (w : World) : World :=
  addMessage System "Connection error occurred" true w.

Definition disconnectWebSocket (w : World) : World :=
  let w1 :=
    match socket w with
    | Some i => set_socket None (close i w)
    | None => w
    end in
  let w2 :=
    match pingInterval w1 with
    | Some h => set_pingInterval None (clearInterval h w1)
    | None => w1
    end in
  set_connected false w2.

(** What the runtime does with the [i]-th socket: it moves its
    [readyState] and runs the handler [connectWebSocket] put on it.
    [ev_closing] is the closing handshake started by the other side:
    the socket goes from OPEN to CLOSING in a task of its own, no
    handler runs, and the close event comes later. *)
Inductive SocketEvent : Set :=
| ev_open
| ev_message (f : Frame)
| ev_error
| ev_closing
| ev_close.

Definition deliver (i : nat) (e : SocketEvent) (w : World) : World :=
  match e, readyState w i with
  | ev_open, Some CONNECTING =>
      onopen (set_sockets (set_nth i OPEN (sockets w)) w)
  | ev_message f, Some OPEN => onmessage f w
  | ev_error, Some CONNECTING | ev_error, Some OPEN
  | ev_error, Some CLOSING => onerror w
  | ev_closing, Some OPEN => set_sockets (set_nth i CLOSING (sockets w)) w
  | ev_close, Some CONNECTING | ev_close, Some OPEN
  | ev_close, Some CLOSING =>
      onclose (set_sockets (set_nth i CLOSED (sockets w)) w)
  | _, _ => w
  end.

(** *** REST calls *)





Definition issue (r : Request) (w : World) : World :=
  set_requests (requests w ++ [r]) w.

(** [startBrowser] up to its [await]. *)
Definition startBrowser_begin (w : World) : World :=
  issue browser_start (set_isLoading true (set_browserStatus starting w)).

(** [startBrowser] from its [await] on. *)
Definition startBrowser_settle (res : Fetched) (w : World) : World :=
  match res with
  | Resolved message =>
      set_browserStatus running (addMessage System message false w)
  | Rejected error =>
      let w1 :=
        addMessage System ("Failed to start browser - " ++ error) true w in
      set_isLoading false (set_browserStatus idle w1)
  end.

Definition startBrowser (res : Fetched) (w : World) : World :=
  startBrowser_settle res (startBrowser_begin w).

Definition stopBrowser_begin (w : World) : World :=
  issue browser_stop (set_browserStatus stopping w).

Definition stopBrowser_settle (res : Fetched) (w : World) : World :=
  match res with
  | Resolved message =>
      let w1 := addMessage System message false w in
      set_browserStatus idle (set_browserScreenshot "" w1)
  | Rejected error =>
      let w1 :=
        addMessage System ("Failed to stop browser - " ++ error) true w in
      set_browserStatus running w1
  end.

Definition stopBrowser (res : Fetched) (w : World) : World :=
  stopBrowser_settle res (stopBrowser_begin w).

Definition navigateToUrl_begin (url : string) (w : World) : World :=
  issue (browser_navigate url) (set_isLoading true w).

Definition navigateToUrl_settle (res : Fetched) (w : World) : World :=
  match res with
  | Resolved message => addMessage System message false w
  | Rejected error =>
      set_isLoading false
        (addMessage System ("Failed to navigate - " ++ error) true w)
  end.

Definition navigateToUrl (url : string) (res : Fetched) (w : World) : World :=
  if Js.truthy url then
    navigateToUrl_settle res (navigateToUrl_begin url w)
  else addMessage System "Please enter a URL" true w.

Definition runAgent_settle (res : Fetched) (w : World) : World :=
  match res with
  | Resolved message => addMessage System message false w
  | Rejected error =>
      addMessage System ("Failed to run agent - " ++ error) true w
  end.

(** [runAgent] has no [return] with a value: every path resolves to
    [undefined], here [None]. *)
Definition runAgent (prompt : string) (res : Fetched) (w : World)
  : World * option string :=
  if Js.truthy prompt then
    let w1 :=
      addMessage System ("Running agent with prompt: " ++ prompt) false w in
    (runAgent_settle res (issue (agent_run prompt) w1), None)
  else (addMessage System "Please enter a prompt" true w, None).

Definition setFps_settle (fps : Z) (res : Fetched) (w : World) : World :=
  match res with
  | Resolved _ =>
      addMessage System ("FPS set to " ++ Js.string_of_Z fps) false w
  | Rejected error =>
      addMessage System ("Failed to set FPS - " ++ error) true w
  end.

Definition setFps (fps : Z) (res : Fetched) (w : World) : World :=
  setFps_settle fps res (issue (streaming_set_fps fps) w).

(** A world whose channel is down: no socket, no interval, the
    connectivity flag off. *)
Definition is_down (w : World) : Prop :=
  socket w = None /\ pingInterval w = None /\ connected w = false.

(** *** What the properties say about the log and the channel *)

Definition toast_text (t : Toast) : string :=
  match t with
  | toast_error message => message
  | toast_success message => message
  end.

(** From [w] to [w'] the log and the toasts have only grown, and every
    new toast has its text among the new log entries. *)
Definition logged (w w' : World) : Prop :=
  exists ms ts,
    messages w' = messages w ++ ms
    /\ toasts w' = toasts w ++ ts
    /\ Forall (fun t => In (toast_text t) ms) ts.

(** [w'] has the channel of [w]: the connectivity flag, the two module
    variables, the sockets and the intervals. *)
Definition same_channel (w w' : World) : Prop :=
  connected w' = connected w
  /\ socket w' = socket w
  /\ pingInterval w' = pingInterval w
  /\ sockets w' = sockets w
  /\ timers w' = timers w
  /\ timer_seq w' = timer_seq w.

(** [w'] has the calls, the loading flag and the phase of [w]. *)
Definition same_session (w w' : World) : Prop :=
  requests w' = requests w
  /\ isLoading w' = isLoading w
  /\ browserStatus w' = browserStatus w.



(** Every armed interval was handed out before [timer_seq]. *)
Definition timers_fresh (w : World) : Prop :=
  Forall (fun h => (h < timer_seq w)%positive) (timers w).

End Store.

(* ------------------------------------------------------------------ *)
(** ** app.d.ts *)

Module Outcome.

(** [status] of what [onSend] resolves to.  The three strings of the
    interface, and the boolean [true] that the [get_actions] command
    puts there. *)
Inductive status : Set := completed | started | failed | status_true.

Record t : Set := { st : status; message : string }.

End Outcome.

Module Update.

Inductive status : Set := step | failed | completed.

(** [data] is [any]; the sources read [data.message]. *)
Record t : Set := {
  st : status;
  interaction_id : string;
  data_message : string
}.

End Update.

(* ------------------------------------------------------------------ *)
(** ** The command registry *)

Module Commands.

Import Js.

Definition host_class (c : ascii) : bool := alnum c || one_of "-@:%._+~#=" c.
Definition tld_class (c : ascii) : bool := alnum c || one_of "()" c.
Definition tail_class (c : ascii) : bool :=
  alnum c || one_of "-()@:%_+.~#?&/=" c.

(** The pattern of [isValidUrl], between its anchors: an optional
    [https?://], an optional [www.], one to 256 characters of
    [host_class], a dot, one to six characters of [tld_class], a word
    boundary, and any number of characters of [tail_class]. *)
Definition urlRegex : regex :=
  Cat (Opt (Cat (Lit "http") (Cat (Opt (Lit "s")) (Lit "://"))))
 (Cat (Opt (Lit "www."))
 (Cat (Rep host_class 1 (Some 256))
 (Cat (Lit ".")
 (Cat (Rep tld_class 1 (Some 6))
 (Cat WordB
      (Rep tail_class 0 None)))))).

Definition isValidUrl (url : string) : bool := test_whole urlRegex url.

Definition letter (c : ascii) : bool := lower c || upper c.

(** The pattern of [hasProtocol], matched without regard to case and
    anchored at the start only: a letter, any number of letters,
    digits, [+], [.] and [-], then [://]. *)
Definition protocolRegex : regex :=
  Cat (Sym letter)
 (Cat (Rep (fun c => letter c || digit c || one_of "+.-" c) 0 None)
      (Lit "://")).

Definition hasProtocol (s : string) : bool := test_prefix protocolRegex s.

Definition defaultProtocol : string := "https://".

(** The part of a [URL] object the sources read. *)
Record URL : Set := { hostname : string }.

(** What [catch] receives, or the value of the awaited call. *)
Inductive Completion (A : Type) : Type :=
| Returned (a : A)
| Thrown (error : string).
Arguments Returned {A} a.
Arguments Thrown {A} error.

Record Command : Type := {
  id : string;
  name : string;
  description : string;
  placeholder : string;
  onSend : string -> Store.Fetched -> Store.World ->
           Store.World * option Outcome.t;
  enableSend : string -> bool;
  runningText : string
}.

(** [runAgent] after [await browserStore.runAgent(prompt)] has given
    [c].  When the identifier is missing or empty the function runs
    off its end and resolves to [undefined]. *)
Definition runAgent_resume (c : Completion (option string))
           (w : Store.World) : Store.World * option Outcome.t :=
  match c with
  | Returned (Some id) =>
      if truthy id then
        (Store.toast (Store.toast_success ("Agent started with ID: " ++ id)) w,
         Some {| Outcome.st := Outcome.started; Outcome.message := id |})
      else (w, None)
  | Returned None => (w, None)
  | Thrown error =>
      (Store.toast (Store.toast_error ("Failed to run agent - " ++ error)) w,
       Some {| Outcome.st := Outcome.failed;
               Outcome.message := "Failed to run agent - " ++ error |})
  end.

Definition runAgent (prompt : string) (res : Store.Fetched)
           (w : Store.World) : Store.World * option Outcome.t :=
  let (w1, id) := Store.runAgent prompt res w in
  runAgent_resume (Returned id) w1.

Section WithURL.

(** [new URL(s)] of the platform; [None] when it throws. *)
Variable parseURL : string -> option URL.

Definition processed (url : string) : string :=
  let processedUrl := trim url in
  if hasProtocol processedUrl then processedUrl
  else defaultProtocol ++ processedUrl.

Definition hasValidHostname (urlObject : URL) : bool :=
  includes_char "." (hostname urlObject)
  && (3 <? String.length (hostname urlObject))%nat.

(** Whether [new URL(p)] succeeds with a host name that has a dot and
    more than three characters. *)
Definition hostname_ok (p : string) : bool :=
  match parseURL p with
  | Some urlObject => hasValidHostname urlObject
  | None => false
  end.

Definition invalid (processedUrl : string) (w : Store.World)
  : Store.World * option Outcome.t :=
  (Store.toast (Store.toast_error (processedUrl ++ " is not a valid URL")) w,
   Some {| Outcome.st := Outcome.failed;
           Outcome.message := processedUrl ++ " is not a valid URL" |}).

Definition navigateToURL (url : string) (res : Store.Fetched)
           (w : Store.World) : Store.World * option Outcome.t :=
  let processedUrl := processed url in
  match parseURL processedUrl with
  | Some urlObject =>
      if hasValidHostname urlObject then
        (Store.navigateToUrl processedUrl res w,
         Some {| Outcome.st := Outcome.completed;
                 Outcome.message := "Navigated to " ++ processedUrl |})
      else invalid processedUrl w
  | None => invalid processedUrl w
  end.

Definition goto : Command :=
  {| id := "goto";
     name := "Go to page";
     description := "Navigate to a specific URL";
     placeholder := "Enter URL to navigate to...";
     onSend := navigateToURL;
     enableSend := isValidUrl;
     runningText := "Navigating to Page" |}.

Definition get_actions : Command :=
  {| id := "get_actions";
     name := "Get actions";
     description := "Find available actions on this page";
     placeholder := "Press enter to get available actions";
     onSend := fun _ _ w =>
       (w, Some {| Outcome.st := Outcome.status_true;
                   Outcome.message := "Actions retrieved successfully" |});
     enableSend := fun prompt => (0 <? String.length prompt)%nat;
     runningText := "Getting Actions" |}.

Definition prompt : Command :=
  {| id := "prompt";
     name := "Prompt";
     description := "Ask the AI to do something";
     placeholder := "Enter your prompt...";
     onSend := runAgent;
     enableSend := fun prompt => (0 <? String.length prompt)%nat;
     runningText := "Working with Browser" |}.

Definition Commands : list Command := [goto; get_actions; prompt].

End WithURL.

(** A reader of [scheme://host] followed by nothing, or by a path, a
    query, a fragment or a port: enough of [new URL] to run the
    registry on plain addresses in the examples below.  The theorems
    hold for every [parseURL]. *)
Fixpoint after_scheme (s : string) : option string :=
  match s with
  | EmptyString => None
  | String c s' =>
      if String.prefix "://" s then Some (String.substring 3 (String.length s') s)
      else after_scheme s'
  end.

Fixpoint host_of (s : string) : string :=
  match s with
  | EmptyString => EmptyString
  | String c s' =>
      if one_of "/?#:" c then EmptyString else String c (host_of s')
  end.

Definition plainURL (s : string) : option URL :=
  match after_scheme s with
  | Some rest =>
      match host_of rest with
      | EmptyString => None
      | h => if includes_char " " h then None else Some {| hostname := h |}
      end
  | None => None
  end.

End Commands.

(* ------------------------------------------------------------------ *)
(** ** messages/agent.svelte *)

Module AgentMessage.

(** The subscription of one mounted message to the [updates] store.
    [subscribe] runs its callback once before it returns; when that
    first run reaches [unsubscribe()] the constant is not initialised
    yet, the call throws, and the callback stays registered with a
    handle that never comes: [listening_without_handle].  When such a
    callback throws again, this time inside [updates.set], the error
    leaves the loop of the store over its queue of subscribers, the
    queue is never emptied, and no callback runs any more:
    [stalled]. *)
Inductive Subscription : Set :=
| not_subscribed
| listening
| listening_without_handle
| stalled.

(** The component: its [response] and its subscription. *)
Record Component : Set := {
  response : string;
  subscription : Subscription
}.

(** The two stores the component writes: [turn] and [updates].
    [updates] is imported from the store module, and the store module
    at hand does not define it; it is taken as a writable store of
    [Update] arrays, which is how the component uses it.  What the rest
    of the application puts into it is left open: [notify] below takes
    any value. *)
Record Stores : Set := {
  turn : Store.Phase;
  updates : list Update.t
}.

(** A component as it is created. *)
Definition fresh : Component :=
  {| response := ""; subscription := not_subscribed |}.

(** The Invocation states of the specification, read off the
    component: it is Started while it listens for updates. *)
Definition is_started (c : Component) : bool :=
  match subscription c with
  | listening => true
  | _ => false
  end.

(** [update[update.length - 1]] when [update.length > 0] *)
Definition lastUpdate (update : list Update.t) : option Update.t :=
  List.last (List.map Some update) None.

(** Whether the callback reaches [unsubscribe()] on [update]. *)
Definition completes (update : list Update.t) : bool :=
  match lastUpdate update with
  | Some u =>
      match Update.st u with
      | Update.completed => true
      | _ => false
      end
  | None => false
  end.

(** The function given to [updates.subscribe].  [handle] tells whether
    [unsubscribe] is initialised. *)
Definition callback (handle : bool) (update : list Update.t)
           (cs : Component * Stores) : Component * Stores :=
  let (c, s) := cs in
  match lastUpdate update with
  | Some u =>
      match Update.st u with
      | Update.completed =>
          let c1 := {| response := Update.data_message u;
                       subscription := subscription c |} in
          if handle then
            ({| response := response c1; subscription := not_subscribed |},
             {| turn := Store.idle; updates := [] |})
          else (c1, s)
      | Update.step => (c, s)
      | Update.failed => (c, s)
      end
  | None => (c, s)
  end.

(** [const unsubscribe = updates.subscribe(...)] *)
Definition subscribe (cs : Component * Stores) : Component * Stores :=
  let (c, s) := cs in
  let (c1, s1) := callback false (updates s) (c, s) in
  ({| response := response c1;
      subscription := if completes (updates s)
                      then listening_without_handle else listening |},
   s1).

(** [onMount] after [await message.command.onSend(message.content)]
    has given [out].  Destructuring [undefined] throws and leaves the
    component as it is. *)
Definition onMount_resume (out : option Outcome.t)
           (cs : Component * Stores) : Component * Stores :=
  let (c, s) := cs in
  match out with
  | None => (c, s)
  | Some o =>
      match Outcome.st o, Js.truthy (Outcome.message o) with
      | Outcome.completed, true =>
          ({| response := Outcome.message o;
              subscription := subscription c |},
           {| turn := Store.idle; updates := updates s |})
      | Outcome.started, _ => subscribe (c, s)
      | _, _ => (c, s)
      end
  end.

(** The [updates] store takes the value [update] and tells the
    component, if it is registered.  A callback without a handle that
    reaches [unsubscribe()] throws out of [updates.set]; after that
    the store calls nobody. *)
Definition notify (update : list Update.t) (cs : Component * Stores)
  : Component * Stores :=
  let (c, s) := cs in
  let s1 := {| turn := turn s; updates := update |} in
  match subscription c with
  | not_subscribed => (c, s1)
  | listening => callback true update (c, s1)
  | listening_without_handle =>
      let (c1, s2) := callback false update (c, s1) in
      if completes update then
        ({| response := response c1; subscription := stalled |}, s2)
      else (c1, s2)
  | stalled => (c, s1)
  end.

(** [onMount] on a registry command: the send, then the rest. *)
Definition onMount (command : Commands.Command) (content : string)
           (res : Store.Fetched) (w : Store.World)
           (cs : Component * Stores)
  : Store.World * (Component * Stores) :=
  let (w1, out) := Commands.onSend command content res w in
  (w1, onMount_resume out cs).

(** The [updates] store takes the values of [values] one after the
    other. *)
Fixpoint notify_all (values : list (list Update.t))
         (cs : Component * Stores) : Component * Stores :=
  match values with
  | [] => cs
  | update :: rest => notify_all rest (notify update cs)
  end.

End AgentMessage.

(* ------------------------------------------------------------------ *)
(** ** The command input component *)

Module Input.

(** An entry of [ACTIONS]; [enableSend] reads [inputText], here its
    argument.  [onSend] dispatches the [action] event with the entry's
    [id], the event is [ActionEvent] below. *)
Record Action : Set := {
  id : string;
  name : string;
  description : string;
  placeholder : string;
  enableSend : string -> bool
}.

Definition goto : Action :=
  {| id := "goto";
     name := "Go to page";
     description := "Navigate to a specific URL";
     placeholder := "Enter URL to navigate to...";
     enableSend := fun inputText =>
       Js.startsWith inputText "http" || Js.startsWith inputText "www" |}.

Definition get_actions : Action :=
  {| id := "get_actions";
     name := "Get actions";
     description := "Find available actions on this page";
     placeholder := "Press enter to get available actions";
     enableSend := fun inputText => (0 <? String.length inputText)%nat |}.

Definition prompt : Action :=
  {| id := "prompt";
     name := "Prompt";
     description := "Ask the AI to do something";
     placeholder := "Enter your prompt...";
     enableSend := fun inputText => (0 <? String.length inputText)%nat |}.

Definition ACTIONS : list Action := [goto; get_actions; prompt].

(** The detail of the [action] event the component dispatches. *)
Record ActionEvent : Set := { action : string; value : string }.

Record State : Set := {
  inputText : string;
  showActions : bool;
  selectedAction : option Action;
  actionsDialogOpen : bool;
  showKeyboardShortcuts : bool
}.

Definition init : State :=
  {| inputText := ""; showActions := false; selectedAction := None;
     actionsDialogOpen := false; showKeyboardShortcuts := false |}.

(** [handleInput]; [data] is [e.data] of the [InputEvent]. *)
Definition handleInput (data : option string) (s : State) : State :=
  let s1 :=
    match data with
    | Some "@" =>
        {| inputText := inputText s; showActions := true;
           selectedAction := selectedAction s; actionsDialogOpen := true;
           showKeyboardShortcuts := showKeyboardShortcuts s |}
    | _ => s
    end in
  let no_data :=
    match data with
    | Some d => negb (Js.truthy d)
    | None => true
    end in
  if String.eqb (inputText s1) "@" && no_data then
    {| inputText := inputText s1; showActions := false;
       selectedAction := selectedAction s1; actionsDialogOpen := false;
       showKeyboardShortcuts := showKeyboardShortcuts s1 |}
  else s1.

Definition selectAction (a : Action) (s : State) : State :=
  {| inputText := ""; showActions := false; selectedAction := Some a;
     actionsDialogOpen := false;
     showKeyboardShortcuts := showKeyboardShortcuts s |}.

Definition submitAction (s : State) : State * option ActionEvent :=
  match Js.truthy (inputText s), selectedAction s with
  | true, Some a =>
      ({| inputText := ""; showActions := showActions s;
          selectedAction := None;
          actionsDialogOpen := actionsDialogOpen s;
          showKeyboardShortcuts := showKeyboardShortcuts s |},
       Some {| action := id a; value := inputText s |})
  | _, _ => (s, None)
  end.

Definition handleKeydown (key : string) (shiftKey : bool) (s : State)
  : State * option ActionEvent :=
  let s1 :=
    if String.eqb key "Escape" && showActions s then
      {| inputText := inputText s; showActions := false;
         selectedAction := selectedAction s; actionsDialogOpen := false;
         showKeyboardShortcuts := showKeyboardShortcuts s |}
    else s in
  if String.eqb key "Enter" && negb shiftKey then
    if Js.truthy (inputText s1) then submitAction s1 else (s1, None)
  else (s1, None).

(** The function [handleBlur] hands to [setTimeout]. *)
Definition blur_timeout (s : State) : State :=
  if actionsDialogOpen s then s
  else
    {| inputText := inputText s; showActions := false;
       selectedAction := selectedAction s;
       actionsDialogOpen := actionsDialogOpen s;
       showKeyboardShortcuts := showKeyboardShortcuts s |}.

Definition toggleKeyboardShortcuts (s : State) : State :=
  {| inputText := inputText s; showActions := showActions s;
     selectedAction := selectedAction s;
     actionsDialogOpen := actionsDialogOpen s;
     showKeyboardShortcuts := negb (showKeyboardShortcuts s) |}.

Definition clearSelection (s : State) : State :=
  {| inputText := inputText s; showActions := showActions s;
     selectedAction := None; actionsDialogOpen := actionsDialogOpen s;
     showKeyboardShortcuts := showKeyboardShortcuts s |}.

(** What the markup lets reach the script.  [typed] is an [input]
    event of the textarea: [bind:value] stores the new text, then
    [handleInput] runs. *)
Inductive Event : Set :=
| typed (text : string) (data : option string)
| keydown (key : string) (shiftKey : bool)
| blur_elapsed
| click_send
| click_clear
| click_shortcuts
| select_item (a : Action)
| outsideclick.

(** [disabled={!inputText || !selectedAction || disabled}] of the Send
    button. *)
Definition send_disabled (disabled : bool) (s : State) : bool :=
  negb (Js.truthy (inputText s))
  || match selectedAction s with None => true | Some _ => false end
  || disabled.

(** One event under the value [disabled] of the component's property.
    A disabled textarea or button receives no event; the palette and
    the clear button exist only while [showActions], respectively
    [selectedAction], holds. *)
Definition handle (disabled : bool) (e : Event) (s : State)
  : State * option ActionEvent :=
  match e with
  | typed text data =>
      if disabled then (s, None)
      else
        (handleInput data
           {| inputText := text; showActions := showActions s;
              selectedAction := selectedAction s;
              actionsDialogOpen := actionsDialogOpen s;
              showKeyboardShortcuts := showKeyboardShortcuts s |}, None)
  | keydown key shiftKey =>
      if disabled then (s, None) else handleKeydown key shiftKey s
  | blur_elapsed => (blur_timeout s, None)
  | click_send =>
      if send_disabled disabled s then (s, None) else submitAction s
  | click_clear =>
      match selectedAction s with
      | Some _ => (clearSelection s, None)
      | None => (s, None)
      end
  | click_shortcuts => (toggleKeyboardShortcuts s, None)
  | select_item a =>
      if showActions s then (selectAction a s, None) else (s, None)
  | outsideclick =>
      if showActions s then
        ({| inputText := inputText s; showActions := false;
            selectedAction := selectedAction s;
            actionsDialogOpen := actionsDialogOpen s;
            showKeyboardShortcuts := showKeyboardShortcuts s |}, None)
      else (s, None)
  end.

(** A run of events, each with the value of [disabled] at its time;
    the [action] events dispatched, in order. *)
Fixpoint run (es : list (bool * Event)) (s : State)
  : State * list ActionEvent :=
  match es with
  | [] => (s, [])
  | (disabled, e) :: es' =>
      let (s1, out) := handle disabled e s in
      let (s2, outs) := run es' s1 in
      (s2, match out with Some a => a :: outs | None => outs end)
  end.

(** How many events of a run choose a command from the palette. *)
Fixpoint selections (es : list (bool * Event)) : nat :=
  match es with
  | [] => 0
  | (_, select_item _) :: es' => S (selections es')
  | _ :: es' => selections es'
  end.

(** 1 when a command is chosen, 0 otherwise. *)
Definition chosen (s : State) : nat :=
  match selectedAction s with
  | Some _ => 1
  | None => 0
  end.

(** [s] with the two flags of the palette set. *)
Definition with_palette (shown open : bool) (s : State) : State :=
  {| inputText := inputText s; showActions := shown;
     selectedAction := selectedAction s; actionsDialogOpen := open;
     showKeyboardShortcuts := showKeyboardShortcuts s |}.

(** The palette is shown only while its dialog flag is up. *)
Definition palette_consistent (s : State) : Prop :=
  showActions s = true -> actionsDialogOpen s = true.

End Input.

(* ------------------------------------------------------------------ *)
(** ** The control panel of browser.svelte *)

Module Panel.

Import Store.

(** The value an [<input type="range" min max step="1">] takes when
    the user asks for [v]. *)
Definition range_value (min max v : Z) : Z := Z.max min (Z.min max v).

Definition is_running (w : World) : bool :=
  match browserStatus w with
  | running => true
  | _ => false
  end.

(** What can happen to the page: the two lifecycle hooks, the controls
    of the markup, and the runtime calling back into the store.  A
    REST call comes with its outcome and runs to its end in one
    step. *)
Inductive Event : Set :=
| mount (res : Fetched)
| destroy (res : Fetched)
| click_start (res : Fetched)
| click_stop (res : Fetched)
| edit_url (text : string)
| click_navigate (res : Fetched)
| slide_fps (v : Z)
| click_apply (res : Fetched)
| edit_prompt (text : string)
| click_run_agent (res : Fetched)
| socket_event (i : nat) (e : SocketEvent)
| interval (h : positive).

Definition handle (e : Event) (w : World) : World :=
  match e with
  | mount res => startBrowser res (connectWebSocket w)
  | destroy res => stopBrowser res (disconnectWebSocket w)
  | click_start res =>
      match browserStatus w with
      | running | starting => w
      | _ => startBrowser res w
      end
  | click_stop res =>
      match browserStatus w with
      | idle | stopping => w
      | _ => stopBrowser res w
      end
  | edit_url text => if is_running w then set_urlInput text w else w
  | click_navigate res =>
      if is_running w then navigateToUrl (urlInput w) res w else w
  | slide_fps v =>
      if is_running w then set_fpsValue (range_value 1 30 v) w else w
  | click_apply res => if is_running w then setFps (fpsValue w) res w else w
  | edit_prompt text => if is_running w then set_promptInput text w else w
  | click_run_agent res =>
      if is_running w then fst (runAgent (promptInput w) res w) else w
  | socket_event i e => deliver i e w
  | interval h =>
      if existsb (Pos.eqb h) (timers w) then ping_tick w else w
  end.

Definition run (es : list Event) (w : World) : World :=
  fold_left (fun w e => handle e w) es w.

(** *** The rates the page posts *)

Definition in_range (fps : Z) : Prop := (1 <= fps <= 30)%Z.

Definition request_ok (r : Request) : Prop :=
  match r with
  | streaming_set_fps fps => in_range fps
  | _ => True
  end.

(** [w'] has the rate of [w], and the calls of [w] followed by calls
    that are all in range. *)
Definition extends (w w' : World) : Prop :=
  fpsValue w' = fpsValue w
  /\ exists rs, requests w' = requests w ++ rs /\ Forall request_ok rs.

(** The rate is in range and so is every rate that was posted. *)
Definition bounded (w : World) : Prop :=
  in_range (fpsValue w) /\ Forall request_ok (requests w).

End Panel.

(* ------------------------------------------------------------------ *)
(** ** The store next to a mounted message *)

Module Session.

Import AgentMessage.

(** The store module next to one mounted agent message and the two
    stores the message writes. *)
Record t : Set := {
  store : Store.World;
  agent : Component * Stores
}.

Definition disconnectWebSocket (p : t) : t :=
  {| store := Store.disconnectWebSocket (store p); agent := agent p |}.

Definition deliver (i : nat) (e : Store.SocketEvent) (p : t) : t :=
  {| store := Store.deliver i e (store p); agent := agent p |}.

Definition notify (update : list Update.t) (p : t) : t :=
  {| store := store p; agent := AgentMessage.notify update (agent p) |}.

Definition started (p : t) : bool := is_started (fst (agent p)).

End Session.

(* ------------------------------------------------------------------ *)
(** ** States and runs the properties are tried on *)

Module Scenario.

(** A channel that was connected and opened once. *)
Definition opened : Store.World :=
  Store.deliver 0 Store.ev_open (Store.connectWebSocket Store.init).

(** A turn under way and no update yet. *)
Definition quiet : AgentMessage.Stores :=
  {| AgentMessage.turn := Store.running; AgentMessage.updates := [] |}.

(** The component after [onSend] resolved to ["started"] with the
    identifier [id]. *)
Definition started_with (id : string) (s : AgentMessage.Stores)
  : AgentMessage.Component * AgentMessage.Stores :=
  AgentMessage.onMount_resume
    (Some {| Outcome.st := Outcome.started; Outcome.message := id |})
    (AgentMessage.fresh, s).

Definition done (id : string) : Update.t :=
  {| Update.st := Update.completed; Update.interaction_id := id;
     Update.data_message := "Done" |}.

(** An open channel and an invocation started under ["x1"]. *)
Definition outstanding : Session.t :=
  {| Session.store := opened;
     Session.agent := started_with "x1" quiet |}.

(** A command chosen and a text typed. *)
Definition armed (a : Input.Action) (text : string) : Input.State :=
  {| Input.inputText := text; Input.showActions := false;
     Input.selectedAction := Some a; Input.actionsDialogOpen := false;
     Input.showKeyboardShortcuts := false |}.

(** The keys and clicks that choose [goto], type [text] and send it
    with [last]. *)
Definition send_goto (text : string) (last : Input.Event)
  : list (bool * Input.Event) :=
  [(false, Input.typed "@" (Some "@")); (false, Input.select_item Input.goto);
   (false, Input.typed text (Some "m")); (false, last)].

(** The scenario of the specification: the user asks for 45. *)
Definition ask_45 : list Panel.Event :=
  [Panel.mount (Store.Resolved "Browser started"); Panel.slide_fps 45;
   Panel.click_apply (Store.Resolved "ok")].

(** The page left and came back: the first socket is closing, a
    second one is open. *)
Definition reconnected : Store.World :=
  Panel.run [Panel.mount (Store.Resolved "Browser started");
             Panel.socket_event 0 Store.ev_open;
             Panel.destroy (Store.Resolved "Browser stopped");
             Panel.mount (Store.Resolved "Browser started");
             Panel.socket_event 1 Store.ev_open] Store.init.

(** The page mounted twice before the first socket opened. *)
Definition mounted_twice : list Panel.Event :=
  [Panel.mount (Store.Resolved "Browser started");
   Panel.mount (Store.Resolved "Browser started");
   Panel.socket_event 0 Store.ev_open].

End Scenario.

(* ------------------------------------------------------------------ *)
(** * Properties *)

(** ** The primitives on small inputs *)

Module PrimitiveFacts.

Import Js Commands.

Example trim_both_ends : trim "  example.com " = "example.com".
Proof. reflexivity. Qed.

Example trim_keeps_inner : trim (String "009" "a b ") = "a b".
Proof. reflexivity. Qed.

Example trim_blank : trim "   " = "".
Proof. reflexivity. Qed.

Example string_of_Z_30 : string_of_Z 30 = "30".
Proof. reflexivity. Qed.

Example string_of_Z_neg : string_of_Z (-45) = "-45".
Proof. reflexivity. Qed.

Example isValidUrl_accepts :
  map isValidUrl
      ["example.com"; "www.example.com"; "https://www.example.com/a?b=1";
       "http://example.org"; "a.b"]
  = [true; true; true; true; true].
Proof. vm_compute. reflexivity. Qed.

Example isValidUrl_refuses :
  map isValidUrl
      [""; "hello"; " example.com"; "ftp://example.com"; "example.com x";
       "example."]
  = [false; false; false; false; false; false].
Proof. vm_compute. reflexivity. Qed.

Example hasProtocol_samples :
  map hasProtocol
      ["https://x"; "FTP://x"; "a+b.c-d://"; "example.com"; "1a://"; "://";
       "mailto:x"]
  = [true; true; true; false; false; false; false].
Proof. vm_compute. reflexivity. Qed.

Example plainURL_samples :
  map plainURL
      ["https://example.com"; "https://example.com/a?b"; "https://hello";
       "https://"; "https://a b.com"]
  = [Some {| hostname := "example.com" |};
     Some {| hostname := "example.com" |};
     Some {| hostname := "hello" |}; None; None].
Proof. vm_compute. reflexivity. Qed.

Example enableSend_of_the_input :
  Input.enableSend Input.goto "https://example.com" = true
  /\ Input.enableSend Input.goto "www.example.com" = true
  /\ Input.enableSend Input.goto "example.com" = false
  /\ Input.enableSend Input.prompt "" = false
  /\ Input.enableSend Input.prompt "hi" = true.
Proof. repeat split. Qed.

End PrimitiveFacts.

(** ** The lifecycle phase *)

Module PhaseFacts.

Import Store.




(** The scenario of the specification: from [idle], a start that
    succeeds ends [running] with one System entry in the log. *)
Example start_scenario :
  let w := startBrowser (Resolved "Browser started") init in
  browserStatus w = running
  /\ messages w = ["Browser started"]
  /\ toasts w = [toast_success "Browser started"]
  /\ requests w = [browser_start].
Proof.
  repeat split.
Qed.

End PhaseFacts.

(** ** Navigation *)

Module NavigateFacts.

Import Store Commands.

Lemma navigateToUrl_browserStatus url res w :
  browserStatus (navigateToUrl url res w) = browserStatus w.
Proof.
  unfold navigateToUrl.
  destruct (Js.truthy url), res; reflexivity.
Qed.

Lemma isValidUrl_truthy url : isValidUrl url = true -> Js.truthy url = true.
Proof.
  destruct url as [|c url']; [discriminate | reflexivity].
Qed.

Lemma hasProtocol_truthy s : hasProtocol s = true -> Js.truthy s = true.
Proof.
  destruct s as [|c s']; [discriminate | reflexivity].
Qed.

Lemma processed_truthy url : Js.truthy (processed url) = true.
Proof.
  unfold processed.
  destruct (hasProtocol (Js.trim url)) eqn:E.
  - now apply hasProtocol_truthy.
  - reflexivity.
Qed.

(** C8.  [navigateToUrl] never writes [browserStatus], whatever the
    address and the outcome of the call, and neither does the [goto]
    command that wraps it; for an address that [isValidUrl] accepts, a
    call that succeeds appends the message of the response to the
    log, from the store function and from the command alike. *)
Theorem navigate_leaves_phase :
  (forall url res w,
      browserStatus (navigateToUrl url res w) = browserStatus w)
  /\ (forall parseURL url res w,
      browserStatus (fst (navigateToURL parseURL url res w))
      = browserStatus w)
  /\ (forall url message w,
      isValidUrl url = true ->
      messages (navigateToUrl url (Resolved message) w)
      = messages w ++ [message]
      /\ requests (navigateToUrl url (Resolved message) w)
         = requests w ++ [browser_navigate url]
      /\ browserStatus (navigateToUrl url (Resolved message) w)
         = browserStatus w)
  /\ (forall parseURL url message w,
      isValidUrl url = true ->
      hostname_ok parseURL (processed url) = true ->
      messages (fst (navigateToURL parseURL url (Resolved message) w))
      = messages w ++ [message]).
Proof.
  split; [exact navigateToUrl_browserStatus | split; [|split]].
  - intros parseURL url res w. unfold navigateToURL.
    destruct (parseURL (processed url)) as [u|]; [|reflexivity].
    destruct (hasValidHostname u); [|reflexivity].
    apply navigateToUrl_browserStatus.
  - intros url message w Hvalid.
    apply isValidUrl_truthy in Hvalid.
    unfold navigateToUrl. rewrite Hvalid.
    repeat split.
  - intros parseURL url message w _ Hhost.
    unfold hostname_ok in Hhost. unfold navigateToURL.
    destruct (parseURL (processed url)) as [u|]; [|discriminate].
    rewrite Hhost. cbn [fst].
    unfold navigateToUrl. rewrite processed_truthy. reflexivity.
Qed.

Lemma navigate_leaves_phase_witness :
  isValidUrl "example.com" = true
  /\ hostname_ok plainURL (processed "example.com") = true
  /\ messages (navigateToUrl "example.com" (Resolved "Navigated") init)
     = ["Navigated"]
  /\ messages (fst (navigateToURL plainURL "example.com"
                      (Resolved "Navigated") init))
     = ["Navigated"].
Proof.
  destruct navigate_leaves_phase as (_ & _ & Hstore & Hcommand).
  split; [reflexivity|].
  split; [reflexivity|].
  split.
  - apply (Hstore "example.com" "Navigated" init). reflexivity.
  - apply (Hcommand plainURL "example.com" "Navigated" init); reflexivity.
Defined.

Lemma hasValidHostname_false urlObject :
  hasValidHostname urlObject = false <->
  Js.includes_char "." (hostname urlObject) = false
  \/ String.length (hostname urlObject) <= 3.
Proof.
  unfold hasValidHostname.
  rewrite andb_false_iff, Nat.ltb_ge. reflexivity.
Qed.

(** C10.  Without a scheme the address the [goto] command works on is
    the trimmed text after ["https://"].  When that address has no
    valid host name -- [new URL] throws, or the host name has no dot or
    at most three characters -- the command resolves to ["failed"] and
    issues no call; otherwise it posts the address to the navigate end
    point and resolves to ["completed"]. *)
Theorem goto_dispatch (parseURL : string -> option URL) (url : string)
        (res : Fetched) (w : World) :
  (hasProtocol (Js.trim url) = false ->
   processed url = ("https://" ++ Js.trim url)%string)
  /\ (forall urlObject,
      parseURL (processed url) = Some urlObject ->
      (hostname_ok parseURL (processed url) = false <->
       Js.includes_char "." (hostname urlObject) = false
       \/ String.length (hostname urlObject) <= 3))
  /\ (hostname_ok parseURL (processed url) = false ->
      snd (navigateToURL parseURL url res w)
      = Some {| Outcome.st := Outcome.failed;
                Outcome.message := processed url ++ " is not a valid URL" |}
      /\ requests (fst (navigateToURL parseURL url res w)) = requests w)
  /\ (hostname_ok parseURL (processed url) = true ->
      snd (navigateToURL parseURL url res w)
      = Some {| Outcome.st := Outcome.completed;
                Outcome.message := "Navigated to " ++ processed url |}
      /\ requests (fst (navigateToURL parseURL url res w))
         = requests w ++ [browser_navigate (processed url)]).
Proof.
  unfold hostname_ok, navigateToURL.
  split; [|split; [|split]].
  - intros H. unfold processed. now rewrite H.
  - intros urlObject ->. apply hasValidHostname_false.
  - destruct (parseURL (processed url)) as [u|].
    + intros ->. split; reflexivity.
    + intros _. split; reflexivity.
  - destruct (parseURL (processed url)) as [u|]; [|discriminate].
    intros ->. split; [reflexivity|].
    unfold navigateToUrl. rewrite processed_truthy.
    destruct res; reflexivity.
Qed.

Lemma goto_dispatch_witness :
  hasProtocol (Js.trim "  example.com ") = false
  /\ processed "  example.com " = "https://example.com"
  /\ hostname_ok plainURL (processed "  example.com ") = true
  /\ requests (fst (navigateToURL plainURL "  example.com "
                      (Resolved "ok") init))
     = [browser_navigate "https://example.com"]
  /\ hostname_ok plainURL (processed "hello") = false
  /\ requests (fst (navigateToURL plainURL "hello" (Resolved "ok") init))
     = [].
Proof.
  pose proof (goto_dispatch plainURL "  example.com " (Resolved "ok") init)
    as (Hp & _ & _ & Hok).
  pose proof (goto_dispatch plainURL "hello" (Resolved "ok") init)
    as (_ & _ & Hbad & _).
  split; [reflexivity|].
  split; [apply Hp; reflexivity|].
  split; [reflexivity|].
  split; [apply Hok; reflexivity|].
  split; [reflexivity|].
  apply Hbad; reflexivity.
Defined.

End NavigateFacts.

(** ** The push channel *)

Module ChannelFacts.

Import Store Scenario.

Lemma close_frame i w :
  socket (close i w) = socket w
  /\ pingInterval (close i w) = pingInterval w
  /\ timers (close i w) = timers w
  /\ connected (close i w) = connected w.
Proof.
  unfold close.
  destruct (readyState w i) as [[]|]; repeat split.
Qed.

Lemma disconnect_down w : is_down w -> disconnectWebSocket w = w.
Proof.
  intros (Hs & Hp & Hc).
  destruct w; simpl in *; subst.
  reflexivity.
Qed.

Lemma disconnect_is_down w : is_down (disconnectWebSocket w).
Proof.
  unfold is_down, disconnectWebSocket.
  destruct (socket w) as [i|] eqn:Hs.
  - destruct (close_frame i w) as (_ & Hp & _ & _).
    cbn [pingInterval set_socket]. rewrite Hp.
    destruct (pingInterval w) eqn:E; repeat split; cbn.
    now rewrite Hp.
  - destruct (pingInterval w) eqn:Hp; repeat split; cbn; assumption.
Qed.

Lemma disconnect_cancels w h :
  pingInterval w = Some h -> ~ In h (timers (disconnectWebSocket w)).
Proof.
  intros Hp. unfold disconnectWebSocket.
  destruct (socket w) as [i|].
  - destruct (close_frame i w) as (_ & Hp' & Ht & _).
    cbn [pingInterval set_socket]. rewrite Hp', Hp.
    cbn. rewrite Ht. apply remove_In.
  - rewrite Hp. cbn. apply remove_In.
Qed.

Lemma onclose_cancels w h :
  pingInterval w = Some h -> ~ In h (timers (onclose w)).
Proof.
  intros Hp. unfold onclose. cbn [pingInterval set_connected].
  rewrite Hp. cbn. apply remove_In.
Qed.

Lemma onclose_pingInterval w : pingInterval (onclose w) = None.
Proof.
  unfold onclose. cbn [pingInterval set_connected].
  destruct (pingInterval w) eqn:Hp; [reflexivity | exact Hp].
Qed.

Lemma nth_error_set_nth {A : Type} (l : list A) i x y :
  nth_error l i = Some y -> nth_error (set_nth i x l) i = Some x.
Proof.
  revert i. induction l as [|a l IH]; intros [|i] H; try discriminate.
  - reflexivity.
  - cbn in *. now apply IH.
Qed.

(** Once the runtime has opened the socket that [socket] holds, the
    guard of [connectWebSocket] sees it. *)
Lemma open_after_ev_open w i :
  socket w = Some i -> readyState w i = Some CONNECTING ->
  socket_is_open (deliver i ev_open w) = true.
Proof.
  intros Hs Hr. unfold deliver. rewrite Hr.
  unfold socket_is_open, readyState, onopen. cbn. rewrite Hs.
  unfold readyState in Hr.
  now rewrite (nth_error_set_nth _ _ OPEN _ Hr).
Qed.

(** C7.  [connectWebSocket] on an open channel changes nothing: no
    socket is created and no interval is armed; in particular so once
    the socket it created has opened.  [disconnectWebSocket] on a
    channel that is down changes nothing, and doing it twice is doing
    it once.  [onopen] arms the keepalive interval and records its
    handle; [onclose] and [disconnectWebSocket] cancel the recorded
    interval and forget the handle. *)
Theorem channel_idempotent (w : World) :
  (socket_is_open w = true -> connectWebSocket w = w)
  /\ (forall i,
      socket w = Some i -> readyState w i = Some CONNECTING ->
      connectWebSocket (deliver i ev_open w) = deliver i ev_open w)
  /\ (is_down w -> disconnectWebSocket w = w)
  /\ disconnectWebSocket (disconnectWebSocket w) = disconnectWebSocket w
  /\ (exists h, pingInterval (onopen w) = Some h
                /\ In h (timers (onopen w)))
  /\ connected (onopen w) = true
  /\ pingInterval (onclose w) = None
  /\ connected (onclose w) = false
  /\ (forall h, pingInterval w = Some h -> ~ In h (timers (onclose w)))
  /\ pingInterval (disconnectWebSocket w) = None
  /\ connected (disconnectWebSocket w) = false
  /\ (forall h, pingInterval w = Some h ->
                ~ In h (timers (disconnectWebSocket w))).
Proof.
  split; [|split; [|split; [|split; [|split; [|split; [|split; [|split;
    [|split; [|split; [|split]]]]]]]]]].
  - intros Hopen. unfold connectWebSocket. now rewrite Hopen.
  - intros i Hs Hr. unfold connectWebSocket.
    now rewrite (open_after_ev_open w i Hs Hr).
  - apply disconnect_down.
  - apply disconnect_down, disconnect_is_down.
  - exists (timer_seq w). split; [reflexivity|].
    cbn. apply in_or_app. right. now left.
  - reflexivity.
  - apply onclose_pingInterval.
  - unfold onclose. cbn [pingInterval set_connected].
    destruct (pingInterval w); reflexivity.
  - apply onclose_cancels.
  - apply (disconnect_is_down w).
  - apply (disconnect_is_down w).
  - apply disconnect_cancels.
Qed.

Lemma channel_idempotent_witness :
  socket_is_open opened = true
  /\ connectWebSocket opened = opened
  /\ connectWebSocket (deliver 0 ev_open (connectWebSocket init))
     = deliver 0 ev_open (connectWebSocket init)
  /\ is_down init
  /\ disconnectWebSocket init = init
  /\ pingInterval opened = Some 1%positive
  /\ ~ In 1%positive (timers (disconnectWebSocket opened)).
Proof.
  pose proof (channel_idempotent opened)
    as (Hc & _ & _ & _ & _ & _ & _ & _ & _ & _ & _ & Hd).
  pose proof (channel_idempotent (connectWebSocket init)) as (_ & Ho & _).
  pose proof (channel_idempotent init) as (_ & _ & Hi & _).
  split; [reflexivity|].
  split; [apply Hc; reflexivity|].
  split; [apply (Ho 0); reflexivity|].
  split; [repeat split|].
  split; [apply Hi; repeat split|].
  split; [reflexivity|].
  apply Hd; reflexivity.
Defined.

(** A socket the other side closed is dropped by
    [disconnectWebSocket] and nothing else changes. *)
Lemma disconnect_after_remote_close w i :
  socket w = Some i -> readyState w i = Some CLOSED ->
  pingInterval w = None -> connected w = false ->
  disconnectWebSocket w = set_socket None w.
Proof.
  intros Hs Hr Hp Hc. unfold disconnectWebSocket, close.
  rewrite Hs, Hr. cbn [pingInterval set_socket]. rewrite Hp.
  destruct w; simpl in *; subst. reflexivity.
Qed.

(** One life of the channel: connect, open, a second connect, a ping,
    the close. *)
Example channel_life :
  let w1 := connectWebSocket opened in
  let w2 := ping_tick w1 in
  let w3 := deliver 0 ev_close w2 in
  sockets w1 = [OPEN] /\ timers w1 = [1%positive]
  /\ pings w2 = [0]
  /\ connected w3 = false /\ timers w3 = [] /\ pingInterval w3 = None
  /\ messages w3 = ["Connected to server"].
Proof.
  repeat split.
Qed.

(** The guard of [connectWebSocket] is the OPEN state: a second call
    made before the first socket has opened creates a second socket. *)
Example connect_while_connecting :
  sockets (connectWebSocket (connectWebSocket init))
  = [CONNECTING; CONNECTING]
  /\ socket (connectWebSocket (connectWebSocket init)) = Some 1.
Proof.
  split; reflexivity.
Qed.

End ChannelFacts.

(** ** The streaming rate *)

Module FpsFacts.

Import Store Panel Scenario.

Local Open Scope Z_scope.

Lemma extends_refl w : extends w w.
Proof.
  split; [reflexivity|]. exists []. now rewrite app_nil_r.
Qed.

Lemma extends_trans w1 w2 w3 : extends w1 w2 -> extends w2 w3 -> extends w1 w3.
Proof.
  intros (Hf1 & rs1 & Hr1 & Hok1) (Hf2 & rs2 & Hr2 & Hok2).
  split; [congruence|].
  exists (rs1 ++ rs2). split.
  - now rewrite Hr2, Hr1, app_assoc.
  - apply Forall_app. now split.
Qed.

(** A step that touches neither the rate nor the list of calls. *)
Lemma extends_frame w w' :
  fpsValue w' = fpsValue w -> requests w' = requests w -> extends w w'.
Proof.
  intros Hf Hr. split; [exact Hf|]. exists []. now rewrite app_nil_r.
Qed.

Lemma extends_issue w r : request_ok r -> extends w (issue r w).
Proof.
  intros Hok. split; [reflexivity|].
  exists [r]. split; [reflexivity|]. now constructor.
Qed.

Create HintDb fps.

#[local] Hint Resolve extends_refl extends_frame extends_issue : fps.

Lemma extends_addMessage from message error w :
  extends w (addMessage from message error w).
Proof.
  apply extends_frame; destruct from, error; reflexivity.
Qed.

#[local] Hint Resolve extends_addMessage : fps.

Ltac step_by H := eapply extends_trans; [apply H|].

Lemma extends_connect w : extends w (connectWebSocket w).
Proof.
  unfold connectWebSocket.
  destruct (socket_is_open w); auto with fps.
Qed.

Lemma extends_close i w : extends w (close i w).
Proof.
  unfold close.
  destruct (readyState w i) as [[]|]; auto with fps.
Qed.

Lemma extends_disconnect w : extends w (disconnectWebSocket w).
Proof.
  unfold disconnectWebSocket.
  set (w1 := match socket w with
             | Some i => set_socket None (close i w)
             | None => w
             end).
  assert (H1 : extends w w1).
  { subst w1. destruct (socket w) as [i|]; [|auto with fps].
    step_by (extends_close i). now apply extends_frame. }
  eapply extends_trans; [exact H1|].
  destruct (pingInterval w1); now apply extends_frame.
Qed.

Lemma extends_ping_tick w : extends w (ping_tick w).
Proof.
  unfold ping_tick.
  destruct (socket_is_open w), (socket w), (pingInterval w);
    auto with fps.
Qed.

Lemma extends_onclose w : extends w (onclose w).
Proof.
  unfold onclose. cbn.
  destruct (pingInterval w); auto with fps.
Qed.

Lemma extends_onmessage f w : extends w (onmessage f w).
Proof.
  destruct f; cbn; auto with fps.
Qed.

Lemma extends_deliver i e w : extends w (deliver i e w).
Proof.
  unfold deliver.
  destruct e, (readyState w i) as [[]|];
    auto using extends_onmessage with fps;
    try (apply extends_frame; reflexivity);
    try (eapply extends_trans; [|apply extends_onclose];
         apply extends_frame; reflexivity).
Qed.

Lemma extends_startBrowser res w : extends w (startBrowser res w).
Proof.
  split; [destruct res; reflexivity|].
  exists [browser_start]. split; [destruct res; reflexivity|].
  constructor; [exact I | constructor].
Qed.

Lemma extends_stopBrowser res w : extends w (stopBrowser res w).
Proof.
  split; [destruct res; reflexivity|].
  exists [browser_stop]. split; [destruct res; reflexivity|].
  constructor; [exact I | constructor].
Qed.

Lemma extends_navigateToUrl url res w : extends w (navigateToUrl url res w).
Proof.
  unfold navigateToUrl. destruct (Js.truthy url); [|auto with fps].
  split; [destruct res; reflexivity|].
  exists [browser_navigate url]. split; [destruct res; reflexivity|].
  constructor; [exact I | constructor].
Qed.

Lemma extends_runAgent prompt res w :
  extends w (fst (runAgent prompt res w)).
Proof.
  unfold runAgent. destruct (Js.truthy prompt); cbn [fst]; [|auto with fps].
  split; [destruct res; reflexivity|].
  exists [agent_run prompt]. split; [destruct res; reflexivity|].
  constructor; [exact I | constructor].
Qed.

Lemma extends_setFps fps res w :
  in_range fps -> extends w (setFps fps res w).
Proof.
  intros Hfps.
  split; [destruct res; reflexivity|].
  exists [streaming_set_fps fps]. split; [destruct res; reflexivity|].
  constructor; [exact Hfps | constructor].
Qed.

Lemma range_value_in_range v : in_range (range_value 1 30 v).
Proof.
  unfold in_range, range_value. lia.
Qed.

Lemma bounded_extends w w' : bounded w -> extends w w' -> bounded w'.
Proof.
  intros (Hf & Hr) (Hf' & rs & Hr' & Hok).
  split; [now rewrite Hf'|].
  rewrite Hr'. apply Forall_app. now split.
Qed.

Lemma bounded_init : bounded init.
Proof.
  split; [unfold in_range; cbn; lia | constructor].
Qed.

Lemma bounded_handle e w : bounded w -> bounded (handle e w).
Proof.
  intros Hb.
  destruct e; cbn [handle].
  - eapply bounded_extends; [exact Hb|].
    step_by extends_connect. apply extends_startBrowser.
  - eapply bounded_extends; [exact Hb|].
    step_by extends_disconnect. apply extends_stopBrowser.
  - destruct (browserStatus w); try exact Hb;
      (eapply bounded_extends; [exact Hb | apply extends_startBrowser]).
  - destruct (browserStatus w); try exact Hb;
      (eapply bounded_extends; [exact Hb | apply extends_stopBrowser]).
  - destruct (is_running w); [|exact Hb].
    eapply bounded_extends; [exact Hb | now apply extends_frame].
  - destruct (is_running w); [|exact Hb].
    eapply bounded_extends; [exact Hb | apply extends_navigateToUrl].
  - destruct (is_running w); [|exact Hb].
    split; [apply range_value_in_range | apply Hb].
  - destruct (is_running w); [|exact Hb].
    eapply bounded_extends; [exact Hb | apply extends_setFps, Hb].
  - destruct (is_running w); [|exact Hb].
    eapply bounded_extends; [exact Hb | now apply extends_frame].
  - destruct (is_running w); [|exact Hb].
    eapply bounded_extends; [exact Hb | apply extends_runAgent].
  - eapply bounded_extends; [exact Hb | apply extends_deliver].
  - destruct (existsb (Pos.eqb h) (timers w)); [|exact Hb].
    eapply bounded_extends; [exact Hb | apply extends_ping_tick].
Qed.

Lemma bounded_run es w : bounded w -> bounded (run es w).
Proof.
  revert w. induction es as [|e es IH]; intros w Hb; [exact Hb|].
  apply IH, bounded_handle, Hb.
Qed.

(** C9.  The rate control is a range input between 1 and 30, so what
    the user asks for is clamped before it reaches the store, and the
    Apply button posts the stored rate: whatever happens to the page,
    the stored rate and every rate posted to the set-fps end point lie
    between 1 and 30. *)
Theorem posted_fps_in_range (es : list Event) (v fps : Z) :
  1 <= range_value 1 30 v <= 30
  /\ 1 <= fpsValue (run es init) <= 30
  /\ (In (streaming_set_fps fps) (requests (run es init)) ->
      1 <= fps <= 30).
Proof.
  destruct (bounded_run es init bounded_init) as (Hrate & Hall).
  split; [apply range_value_in_range | split; [exact Hrate|]].
  intros Hin.
  rewrite Forall_forall in Hall.
  exact (Hall _ Hin).
Qed.

Lemma posted_fps_in_range_witness :
  In (streaming_set_fps 30) (requests (run ask_45 init))
  /\ 1 <= 30 <= 30.
Proof.
  assert (H : In (streaming_set_fps 30) (requests (run ask_45 init))).
  { vm_compute. right. left. reflexivity. }
  split; [exact H|].
  exact (proj2 (proj2 (posted_fps_in_range ask_45 45 30)) H).
Defined.

Example range_value_samples :
  map (range_value 1 30) [45; 0; -3; 1; 17; 30; 31] = [30; 1; 1; 1; 17; 30; 30].
Proof.
  reflexivity.
Qed.

Example ask_45_posts_30 :
  fpsValue (run ask_45 init) = 30
  /\ requests (run ask_45 init) = [browser_start; streaming_set_fps 30]
  /\ messages (run ask_45 init) = ["Browser started"; "FPS set to 30"]%string.
Proof.
  repeat split.
Qed.

(** [setFps] itself takes any rate: the bound comes from the control,
    not from the store. *)
Example setFps_unchecked :
  requests (setFps 45 (Resolved "ok") init) = [streaming_set_fps 45].
Proof.
  reflexivity.
Qed.

End FpsFacts.

(** ** Updates and the outstanding invocation *)

Module CorrelatorFacts.

Import AgentMessage Scenario.

Lemma started_listening c : is_started c = true -> subscription c = listening.
Proof.
  unfold is_started. destruct (subscription c); congruence.
Qed.

(** What a Started invocation does with the new value of [updates]:
    only the status of the last update matters. *)
Lemma notify_started c s update u :
  is_started c = true ->
  lastUpdate update = Some u ->
  notify update (c, s)
  = match Update.st u with
    | Update.completed =>
        ({| response := Update.data_message u;
            subscription := not_subscribed |},
         {| turn := Store.idle; updates := [] |})
    | _ => (c, {| turn := turn s; updates := update |})
    end.
Proof.
  intros Hstarted Hlast.
  apply started_listening in Hstarted.
  unfold notify, callback. rewrite Hstarted, Hlast.
  destruct (Update.st u); reflexivity.
Qed.

(** C2, as stated, fails: the invocation was started under ["x1"], a
    completed update that carries ["x2"] arrives, and the invocation
    takes its message and stops listening. *)
Lemma foreign_completed_update_is_applied :
  is_started (fst (started_with "x1" quiet)) = true
  /\ Update.st (done "x2") = Update.completed
  /\ Update.interaction_id (done "x2") <> "x1"
  /\ fst (notify [done "x2"] (started_with "x1" quiet))
     = {| response := "Done"; subscription := not_subscribed |}
  /\ fst (notify [done "x2"] (started_with "x1" quiet))
     <> fst (started_with "x1" quiet).
Proof.
  repeat split; discriminate.
Qed.

(** C2, amended.  [interaction_id] is never read.  For a Started
    invocation, an update whose status is ["failed"] (or ["step"])
    leaves the invocation as it is, and an update whose status is
    ["completed"] completes it: the response is the message of the
    update, the subscription ends, [updates] is emptied and [turn]
    goes to [idle] -- whatever identifier the update carries. *)
Theorem update_applied_whatever_id (c : Component) (s : Stores)
        (update : list Update.t) (u : Update.t) :
  is_started c = true ->
  lastUpdate update = Some u ->
  (Update.st u = Update.failed ->
   notify update (c, s) = (c, {| turn := turn s; updates := update |}))
  /\ (Update.st u = Update.step ->
      notify update (c, s) = (c, {| turn := turn s; updates := update |}))
  /\ (Update.st u = Update.completed ->
      notify update (c, s)
      = ({| response := Update.data_message u;
            subscription := not_subscribed |},
         {| turn := Store.idle; updates := [] |})).
Proof.
  intros Hstarted Hlast.
  rewrite (notify_started c s update u Hstarted Hlast).
  repeat split; intros ->; reflexivity.
Qed.

Lemma update_applied_whatever_id_witness :
  notify [done "x2"] (started_with "x1" quiet)
  = ({| response := "Done"; subscription := not_subscribed |},
     {| turn := Store.idle; updates := [] |}).
Proof.
  apply (update_applied_whatever_id
           (fst (started_with "x1" quiet)) quiet [done "x2"] (done "x2"));
    reflexivity.
Defined.

(** C5, as stated, fails.  With the store as it is written no
    identifier comes back from the run-agent call, so the [prompt]
    command resolves to [undefined] and the message never listens;
    and a component that is started from an identifier does not keep
    it: starting under ["x1"] and under ["x2"] give the same state. *)
Lemma run_agent_identifier_not_kept :
  snd (Commands.runAgent "summarize this page"
         (Store.Resolved "Agent started") Store.init) = None
  /\ is_started
       (fst (snd (onMount Commands.prompt "summarize this page"
                    (Store.Resolved "Agent started") Store.init
                    (fresh, quiet)))) = false
  /\ "x1" <> "x2"
  /\ started_with "x1" quiet = started_with "x2" quiet.
Proof.
  repeat split; discriminate.
Qed.

(** C5, amended.  When the run-agent call of the store yields a
    non-empty identifier, the [prompt] command shows it in a toast and
    resolves to ["started"] with the identifier as its message; on
    that outcome the message subscribes to [updates] and is Started,
    provided [updates] does not already end with a completed update.
    The state it reaches does not depend on the identifier. *)
Theorem started_from_identifier (id : string) (w : Store.World)
        (s : Stores) :
  Js.truthy id = true ->
  completes (updates s) = false ->
  Commands.runAgent_resume (Commands.Returned (Some id)) w
  = (Store.toast (Store.toast_success ("Agent started with ID: " ++ id)) w,
     Some {| Outcome.st := Outcome.started; Outcome.message := id |})
  /\ started_with id s
     = ({| response := ""; subscription := listening |}, s)
  /\ is_started (fst (started_with id s)) = true.
Proof.
  intros Hid Hquiet.
  unfold Commands.runAgent_resume. rewrite Hid.
  split; [reflexivity|].
  assert (E : started_with id s
              = ({| response := ""; subscription := listening |}, s)).
  { unfold started_with, onMount_resume, subscribe, callback.
    cbn [Outcome.st Outcome.message].
    rewrite Hquiet. unfold completes in Hquiet.
    destruct (lastUpdate (updates s)) as [u|]; [|reflexivity].
    destruct (Update.st u); try reflexivity. discriminate. }
  split; [exact E|]. now rewrite E.
Qed.

Lemma started_from_identifier_witness :
  Js.truthy "x1" = true
  /\ completes (updates quiet) = false
  /\ is_started (fst (started_with "x1" quiet)) = true.
Proof.
  split; [reflexivity|]. split; [reflexivity|].
  apply (started_from_identifier "x1" Store.init quiet); reflexivity.
Defined.

(** The scenario of the specification, with an identifier supplied to
    the command: a step leaves the invocation Started, the completed
    update resolves it with ["Done"]. *)
Example step_then_completed :
  let step := {| Update.st := Update.step; Update.interaction_id := "x1";
                 Update.data_message := "" |} in
  let s1 := notify [step] (started_with "x1" quiet) in
  let s2 := notify [step; done "x1"] s1 in
  is_started (fst s1) = true
  /\ response (fst s2) = "Done"
  /\ is_started (fst s2) = false
  /\ snd s2 = {| turn := Store.idle; updates := [] |}.
Proof.
  repeat split.
Qed.

End CorrelatorFacts.

(** ** Disconnecting while an invocation is outstanding *)

Module DisconnectFacts.

Import AgentMessage Scenario.

(** C4, as stated, fails: after the disconnect the invocation is still
    Started, and the completed update for ["x1"] that comes later is
    taken, not discarded. *)
Lemma disconnect_keeps_invocation_started :
  Session.started outstanding = true
  /\ Store.connected (Session.store outstanding) = true
  /\ Session.started (Session.disconnectWebSocket outstanding) = true
  /\ Store.connected
       (Session.store (Session.disconnectWebSocket outstanding)) = false
  /\ fst (Session.agent
            (Session.notify [done "x1"]
               (Session.disconnectWebSocket outstanding)))
     = {| response := "Done"; subscription := not_subscribed |}.
Proof.
  repeat split.
Qed.

(** C4, amended.  Disconnecting, by [disconnectWebSocket] or by the
    socket closing, turns connectivity off and forgets the keepalive
    handle, and [disconnectWebSocket] also forgets the socket; the
    outstanding invocation is not touched: it stays Started, [turn]
    and [updates] are as before, and a completed update that arrives
    later still completes it. *)
Theorem disconnect_leaves_invocation (p : Session.t) (i : nat) :
  Session.started p = true ->
  let p1 := Session.disconnectWebSocket p in
  let p2 := Session.deliver i Store.ev_close p in
  Store.connected (Session.store p1) = false
  /\ Store.socket (Session.store p1) = None
  /\ Store.pingInterval (Session.store p1) = None
  /\ Session.agent p1 = Session.agent p
  /\ Session.agent p2 = Session.agent p
  /\ Session.started p1 = true
  /\ Session.started p2 = true
  /\ forall update u,
      lastUpdate update = Some u ->
      Update.st u = Update.completed ->
      fst (Session.agent (Session.notify update p1))
      = {| response := Update.data_message u;
           subscription := not_subscribed |}.
Proof.
  intros Hstarted p1 p2.
  destruct (ChannelFacts.disconnect_is_down (Session.store p))
    as (Hs & Hp & Hc).
  repeat split; try assumption.
  intros update u Hlast Hdone. cbn.
  destruct (Session.agent p) as [c s] eqn:E.
  unfold Session.started in Hstarted. rewrite E in Hstarted.
  rewrite (CorrelatorFacts.notify_started c s update u Hstarted Hlast), Hdone.
  reflexivity.
Qed.

Lemma disconnect_leaves_invocation_witness :
  Session.started outstanding = true
  /\ Session.agent (Session.disconnectWebSocket outstanding)
     = Session.agent outstanding.
Proof.
  split; [reflexivity|].
  apply (disconnect_leaves_invocation outstanding 0).
  reflexivity.
Defined.

End DisconnectFacts.

(** ** Submitting from the input component *)

Module InputFacts.

Import Input Scenario.

(** C3 on the code.  The text [" example.com"], with a space in
    front, is refused by the validator of the registry's [goto]
    command ([isValidUrl]) and by the validator of the input's [goto]
    action.  The Enter key and the Send button dispatch it all the
    same, as they dispatch every text that is not empty; and the
    message mounted for the [goto] command with that text, which calls
    [onSend] without asking [enableSend], posts the trimmed address to
    the navigate end point, raises the loading flag and adds an entry
    to the log. *)
Theorem unvalidated_goto_reaches_the_backend
        (parseURL : string -> option Commands.URL) (res : Store.Fetched)
        (w : Store.World)
        (cs : AgentMessage.Component * AgentMessage.Stores) :
  Commands.hostname_ok parseURL "https://example.com" = true ->
  let text := " example.com" in
  let sent := {| action := Commands.id (Commands.goto parseURL);
                 value := text |} in
  let w' := fst (AgentMessage.onMount (Commands.goto parseURL)
                   (value sent) res w cs) in
  Commands.enableSend (Commands.goto parseURL) text = false
  /\ enableSend goto text = false
  /\ snd (run (send_goto text (keydown "Enter" false)) init) = [sent]
  /\ snd (run (send_goto text click_send) init) = [sent]
  /\ (forall a t,
      Js.truthy t = true ->
      snd (handle false click_send (armed a t))
      = Some {| action := id a; value := t |})
  /\ Store.requests w'
     = Store.requests w ++ [Store.browser_navigate "https://example.com"]
  /\ (exists entry, Store.messages w' = Store.messages w ++ [entry])
  /\ (forall message, res = Store.Resolved message ->
                      Store.isLoading w' = true).
Proof.
  intros Hhost text sent w'.
  split; [vm_compute; reflexivity|].
  split; [reflexivity|].
  split; [reflexivity|].
  split; [reflexivity|].
  split.
  { intros a t Ht. cbn [handle]. unfold send_disabled, submitAction.
    cbn [armed inputText selectedAction]. now rewrite Ht. }
  assert (E : w' = Store.navigateToUrl "https://example.com" res w).
  { unfold w', AgentMessage.onMount, Commands.goto.
    cbn [Commands.onSend sent value]. unfold Commands.navigateToURL.
    change (Commands.processed text) with "https://example.com".
    unfold Commands.hostname_ok in Hhost.
    destruct (parseURL "https://example.com") as [u|]; [|discriminate].
    now rewrite Hhost. }
  rewrite E.
  split; [destruct res; reflexivity|].
  split.
  - destruct res as [m|e];
      [exists m | exists ("Failed to navigate - " ++ e)%string]; reflexivity.
  - intros message ->. reflexivity.
Qed.

Lemma unvalidated_goto_reaches_the_backend_witness :
  Commands.hostname_ok Commands.plainURL "https://example.com" = true
  /\ Commands.isValidUrl " example.com" = false
  /\ Store.requests
       (fst (AgentMessage.onMount (Commands.goto Commands.plainURL)
               " example.com" (Store.Resolved "Navigated") Store.init
               (AgentMessage.fresh, quiet)))
     = [Store.browser_navigate "https://example.com"]
  /\ Store.isLoading
       (fst (AgentMessage.onMount (Commands.goto Commands.plainURL)
               " example.com" (Store.Resolved "Navigated") Store.init
               (AgentMessage.fresh, quiet)))
     = true.
Proof.
  destruct (unvalidated_goto_reaches_the_backend
              Commands.plainURL (Store.Resolved "Navigated") Store.init
              (AgentMessage.fresh, quiet) eq_refl)
    as (Hv & _ & _ & _ & _ & Hr & _ & Hl).
  split; [reflexivity|]. split; [exact Hv|]. split; [exact Hr|].
  exact (Hl "Navigated" eq_refl).
Defined.

End InputFacts.

(* ------------------------------------------------------------------ *)
(** * Further properties of the sources *)

(** ** The validator and the address the [goto] command works on *)

Module RegistryFacts.

Import Js Commands.

Lemma append_assoc (a b c : string) :
  ((a ++ b) ++ c)%string = (a ++ (b ++ c))%string.
Proof.
  induction a as [|x a IH]; cbn; [reflexivity | now rewrite IH].
Qed.

Lemma all_chars_app P a b :
  all_chars P (a ++ b) = all_chars P a && all_chars P b.
Proof.
  induction a as [|x a IH]; cbn; [reflexivity|].
  now rewrite IH, andb_assoc.
Qed.

(** A successful match splits the input: a part the pattern consumed,
    made of characters of its classes, and a rest the continuation
    accepts. *)
Lemma rep_split P p lo hi prev s k :
  (forall c, p c = true -> P c = true) ->
  rep p lo hi prev s k = true ->
  exists s1 s2 q,
    s = (s1 ++ s2)%string /\ all_chars P s1 = true /\ k q s2 = true.
Proof.
  intros HP. revert lo hi prev.
  induction s as [|c s IH]; intros lo hi prev H; cbn in H.
  - destruct lo; [|discriminate].
    rewrite orb_false_r in H.
    exists EmptyString, EmptyString, prev. auto.
  - apply orb_true_iff in H as [H|H].
    + destruct lo; [|discriminate].
      exists EmptyString, (String c s), prev. auto.
    + apply andb_true_iff in H as [H H2].
      apply andb_true_iff in H as [Hc _].
      destruct (IH _ _ _ H2) as (s1 & s2 & q & -> & Hall & Hk).
      exists (String c s1), s2, q. cbn.
      rewrite (HP c Hc), Hall. auto.
Qed.

Lemma exec_split P r :
  within P r ->
  forall prev s k,
    exec r prev s k = true ->
    exists s1 s2 q,
      s = (s1 ++ s2)%string /\ all_chars P s1 = true /\ k q s2 = true.
Proof.
  induction r as [|p|r1 IH1 r2 IH2|r1 IH1|p lo hi|]; intros Hw prev s k H;
    cbn in H.
  - exists EmptyString, s, prev. auto.
  - destruct s as [|c s]; [discriminate|].
    apply andb_true_iff in H as [Hc Hk].
    exists (String c EmptyString), s, (Some c). cbn.
    rewrite (Hw c Hc). auto.
  - destruct Hw as [Hw1 Hw2].
    destruct (IH1 Hw1 _ _ _ H) as (s1 & s2 & q & -> & Hall1 & H2).
    destruct (IH2 Hw2 _ _ _ H2) as (s3 & s4 & q' & -> & Hall2 & Hk).
    exists (s1 ++ s3)%string, s4, q'.
    rewrite append_assoc, all_chars_app, Hall1, Hall2. auto.
  - apply orb_true_iff in H as [H|H].
    + exact (IH1 Hw _ _ _ H).
    + exists EmptyString, s, prev. auto.
  - exact (rep_split P p lo hi prev s k Hw H).
  - apply andb_true_iff in H as [_ Hk].
    exists EmptyString, s, prev. auto.
Qed.

Lemma test_whole_chars P r s :
  within P r -> test_whole r s = true -> all_chars P s = true.
Proof.
  intros Hw H.
  destruct (exec_split P r Hw _ _ _ H) as (s1 & s2 & q & -> & Hall & Hk).
  destruct s2; [|discriminate].
  now rewrite all_chars_app, Hall.
Qed.

Lemma class_within (p P : ascii -> bool) :
  forallb (fun n => implb (p (ascii_of_nat n)) (P (ascii_of_nat n)))
          (seq 0 256) = true ->
  forall c, p c = true -> P c = true.
Proof.
  intros H c Hc.
  rewrite forallb_forall in H.
  specialize (H (nat_of_ascii c)).
  rewrite ascii_nat_embedding, Hc in H.
  apply H, in_seq. split; [apply Nat.le_0_l|].
  apply nat_ascii_bounded.
Qed.

Lemma urlRegex_within : within tail_class urlRegex.
Proof.
  cbn. repeat split; apply class_within; vm_compute; reflexivity.
Qed.

Lemma no_space_in_tail_class c :
  tail_class c = true -> negb (is_space c) = true.
Proof.
  apply (class_within tail_class (fun c0 => negb (is_space c0))).
  vm_compute. reflexivity.
Qed.

Lemma trim_end_cons c s :
  is_space c = false -> trim_end (String c s) = String c (trim_end s).
Proof.
  intros H. cbn. rewrite H. now destruct (trim_end s).
Qed.

Lemma trim_end_no_space s :
  all_chars (fun c => negb (is_space c)) s = true -> trim_end s = s.
Proof.
  induction s as [|c s IH]; intros H; [reflexivity|].
  cbn in H. apply andb_true_iff in H as [Hc Hs].
  apply negb_true_iff in Hc.
  now rewrite (trim_end_cons c s Hc), (IH Hs).
Qed.

Lemma trim_no_space s :
  all_chars (fun c => negb (is_space c)) s = true -> trim s = s.
Proof.
  intros H. unfold trim.
  assert (E : trim_start s = s).
  { destruct s as [|c s]; [reflexivity|].
    cbn in H |- *. apply andb_true_iff in H as [Hc _].
    apply negb_true_iff in Hc. now rewrite Hc. }
  rewrite E. now apply trim_end_no_space.
Qed.

Lemma all_chars_impl (P Q : ascii -> bool) s :
  (forall c, P c = true -> Q c = true) ->
  all_chars P s = true -> all_chars Q s = true.
Proof.
  intros HPQ. induction s as [|c s IH]; cbn; [reflexivity|].
  intros H. apply andb_true_iff in H as [Hc Hs].
  now rewrite (HPQ c Hc), (IH Hs).
Qed.

Lemma includes_char_app c a b :
  includes_char c (a ++ b) = includes_char c a || includes_char c b.
Proof.
  induction a as [|x a IH]; cbn; [reflexivity|].
  now rewrite IH, orb_assoc.
Qed.

Lemma within_true r : within true_class r.
Proof.
  induction r; cbn; auto.
Qed.

Lemma exec_cat_split r1 r2 prev s k :
  exec (Cat r1 r2) prev s k = true ->
  exists s1 s2 q, s = (s1 ++ s2)%string /\ exec r2 q s2 k = true.
Proof.
  intros H. cbn in H.
  destruct (exec_split true_class r1 (within_true r1) _ _ _ H)
    as (s1 & s2 & q & -> & _ & H2).
  now exists s1, s2, q.
Qed.

Lemma exec_char_first c r prev s k :
  exec (Cat (Lit (String c EmptyString)) r) prev s k = true ->
  exists s', s = String c s'.
Proof.
  intros H. cbn in H.
  destruct s as [|d s]; [discriminate|].
  apply andb_true_iff in H as [Hd _].
  apply Ascii.eqb_eq in Hd. subst d. now exists s.
Qed.

Lemma isValidUrl_has_dot url :
  isValidUrl url = true -> includes_char "." url = true.
Proof.
  unfold isValidUrl, test_whole, urlRegex. intros H.
  apply exec_cat_split in H as (a & s1 & q1 & -> & H).
  apply exec_cat_split in H as (b & s2 & q2 & -> & H).
  apply exec_cat_split in H as (c & s3 & q3 & -> & H).
  apply exec_char_first in H as (s4 & ->).
  rewrite !includes_char_app. cbn.
  now rewrite !orb_true_r.
Qed.

Lemma trim_end_idem s : trim_end (trim_end s) = trim_end s.
Proof.
  induction s as [|c s IH]; [reflexivity|].
  cbn. destruct (trim_end s) as [|d u] eqn:E.
  - destruct (is_space c) eqn:Hc; [reflexivity|].
    cbn. now rewrite Hc.
  - change (trim_end (String c (String d u)))
      with (match trim_end (String d u) with
            | EmptyString =>
                if is_space c then EmptyString else String c EmptyString
            | t => String c t
            end).
    now rewrite IH.
Qed.

Lemma trim_start_shape s :
  trim_start s = EmptyString
  \/ exists c s', trim_start s = String c s' /\ is_space c = false.
Proof.
  induction s as [|c s IH]; [now left|].
  cbn. destruct (is_space c) eqn:Hc; [exact IH|].
  right. now exists c, s.
Qed.

Lemma trim_idem s : trim (trim s) = trim s.
Proof.
  unfold trim.
  destruct (trim_start_shape s) as [E|(c & s' & E & Hc)]; rewrite E.
  - reflexivity.
  - rewrite (trim_end_cons c s' Hc). cbn [trim_start]. rewrite Hc.
    rewrite <- (trim_end_cons c s' Hc). apply trim_end_idem.
Qed.

Lemma trim_end_trim s : trim_end (trim s) = trim s.
Proof.
  unfold trim. apply trim_end_idem.
Qed.

Lemma hasProtocol_https t : hasProtocol ("https://" ++ t) = true.
Proof.
  reflexivity.
Qed.

Lemma trim_https t :
  trim ("https://" ++ trim t) = ("https://" ++ trim t)%string.
Proof.
  unfold trim at 1. cbn [append trim_start].
  change (is_space "h") with false. cbv iota.
  rewrite !trim_end_cons by reflexivity.
  now rewrite trim_end_trim.
Qed.

(** The validator and the dispatcher of [goto] agree on white space:
    a text that [isValidUrl] accepts is made of the characters of its
    last class, has a dot and no white space, so trimming does not
    change it, and the address the command works on is the text itself
    or the text after ["https://"]. *)
Theorem validated_address (url : string) :
  isValidUrl url = true ->
  all_chars tail_class url = true
  /\ includes_char "." url = true
  /\ trim url = url
  /\ processed url
     = (if hasProtocol url then url else "https://" ++ url)%string.
Proof.
  intros H.
  pose proof (test_whole_chars tail_class urlRegex url urlRegex_within H)
    as Hall.
  assert (Htrim : trim url = url).
  { apply trim_no_space.
    exact (all_chars_impl _ _ url no_space_in_tail_class Hall). }
  split; [exact Hall|].
  split; [now apply isValidUrl_has_dot|].
  split; [exact Htrim|].
  unfold processed, defaultProtocol. now rewrite Htrim.
Qed.

Lemma validated_address_witness :
  isValidUrl "www.example.com/a?b=1" = true
  /\ trim "www.example.com/a?b=1" = "www.example.com/a?b=1"
  /\ processed "www.example.com/a?b=1" = "https://www.example.com/a?b=1".
Proof.
  destruct (validated_address "www.example.com/a?b=1" eq_refl)
    as (_ & _ & Ht & Hp).
  split; [reflexivity|]. split; [exact Ht | exact Hp].
Defined.

(** The address the [goto] command works on always carries a scheme,
    and working on it again gives it back: for every text,
    [processed (processed url) = processed url]. *)
Theorem processed_stable (url : string) :
  hasProtocol (processed url) = true
  /\ trim (processed url) = processed url
  /\ processed (processed url) = processed url.
Proof.
  assert (A : hasProtocol (processed url) = true
              /\ trim (processed url) = processed url).
  { unfold processed, defaultProtocol.
    destruct (hasProtocol (trim url)) eqn:E.
    - split; [exact E | apply trim_idem].
    - split; [apply hasProtocol_https | apply trim_https]. }
  destruct A as [Hp Ht].
  split; [exact Hp|]. split; [exact Ht|].
  unfold processed at 1. now rewrite Ht, Hp.
Qed.

End RegistryFacts.

(** ** A mounted agent message over time *)

Module MessageFacts.

Import AgentMessage.

Lemma notify_not_subscribed c s update :
  subscription c = not_subscribed ->
  notify update (c, s) = (c, {| turn := turn s; updates := update |}).
Proof.
  intros H. unfold notify. now rewrite H.
Qed.

Lemma notify_all_not_subscribed values c s :
  subscription c = not_subscribed ->
  fst (notify_all values (c, s)) = c
  /\ turn (snd (notify_all values (c, s))) = turn s.
Proof.
  intros H. revert s.
  induction values as [|v values IH]; intros s; [now split|].
  cbn [notify_all]. rewrite (notify_not_subscribed c s v H).
  apply (IH {| turn := turn s; updates := v |}).
Qed.

Lemma notify_listening_quiet c s update :
  subscription c = listening -> completes update = false ->
  notify update (c, s) = (c, {| turn := turn s; updates := update |}).
Proof.
  intros Hc Hq. unfold notify, callback. rewrite Hc.
  unfold completes in Hq.
  destruct (lastUpdate update) as [u|]; [|reflexivity].
  destruct (Update.st u); try reflexivity. discriminate.
Qed.

Lemma notify_listening_completed c s update :
  subscription c = listening -> completes update = true ->
  exists u,
    lastUpdate update = Some u
    /\ notify update (c, s)
       = ({| response := Update.data_message u;
             subscription := not_subscribed |},
          {| turn := Store.idle; updates := [] |}).
Proof.
  intros Hc Hq. unfold notify, callback. rewrite Hc.
  unfold completes in Hq.
  destruct (lastUpdate update) as [u|]; [|discriminate].
  exists u. split; [reflexivity|].
  destruct (Update.st u); try discriminate. reflexivity.
Qed.

Lemma last_default {A : Type} (l : list A) (a d d' : A) :
  last (a :: l) d = last (a :: l) d'.
Proof.
  revert a. induction l as [|b l IH]; intros a; [reflexivity|].
  change (last (b :: l) d = last (b :: l) d'). apply IH.
Qed.

(** Only a completed update ends an invocation.  While the values of
    [updates] end with a step or a failed update, or are empty, a
    Started message stays exactly as it is, however many of them
    arrive: it keeps listening, shows no response, and [turn] is not
    written. *)
Theorem started_until_completed (c : Component) (s : Stores)
        (values : list (list Update.t)) :
  is_started c = true ->
  forallb (fun update => negb (completes update)) values = true ->
  fst (notify_all values (c, s)) = c
  /\ turn (snd (notify_all values (c, s))) = turn s
  /\ updates (snd (notify_all values (c, s))) = last values (updates s).
Proof.
  intros Hstarted. unfold is_started in Hstarted.
  assert (Hc : subscription c = listening)
    by (destruct (subscription c); congruence).
  clear Hstarted. revert s.
  induction values as [|v values IH]; intros s Hq; [now repeat split|].
  cbn in Hq. apply andb_true_iff in Hq as [Hv Hq].
  apply negb_true_iff in Hv.
  cbn [notify_all]. rewrite (notify_listening_quiet c s v Hc Hv).
  destruct (IH {| turn := turn s; updates := v |} Hq) as (H1 & H2 & H3).
  repeat split; [exact H1 | exact H2 |].
  rewrite H3. cbn [updates].
  destruct values as [|v' values]; [reflexivity|].
  change (last (v' :: values) v = last (v' :: values) (updates s)).
  apply last_default.
Qed.

Lemma started_until_completed_witness :
  let failed := {| Update.st := Update.failed; Update.interaction_id := "x1";
                   Update.data_message := "boom" |} in
  fst (notify_all [[failed]; []; [failed; failed]]
         (Scenario.started_with "x1" Scenario.quiet))
  = {| response := ""; subscription := listening |}.
Proof.
  intros failed.
  apply (started_until_completed
           {| response := ""; subscription := listening |} Scenario.quiet
           [[failed]; []; [failed; failed]]); reflexivity.
Defined.

(** The first completed update decides.  After values that do not
    complete, the first value that ends with a completed update gives
    the message its response, ends the subscription and sets [turn] to
    [idle]; whatever [updates] takes afterwards, completed or not, the
    response stays and the message writes no store again. *)
Theorem first_completed_is_final (c : Component) (s : Stores)
        (before after : list (list Update.t)) (update : list Update.t)
        (u : Update.t) :
  is_started c = true ->
  forallb (fun v => negb (completes v)) before = true ->
  lastUpdate update = Some u ->
  Update.st u = Update.completed ->
  fst (notify_all (before ++ update :: after) (c, s))
  = {| response := Update.data_message u; subscription := not_subscribed |}
  /\ turn (snd (notify_all (before ++ update :: after) (c, s)))
     = Store.idle.
Proof.
  intros Hstarted. unfold is_started in Hstarted.
  assert (Hc : subscription c = listening)
    by (destruct (subscription c); congruence).
  clear Hstarted. revert s.
  induction before as [|v before IH]; intros s Hq Hlast Hdone.
  - cbn [app notify_all].
    assert (Hcomp : completes update = true)
      by (unfold completes; now rewrite Hlast, Hdone).
    destruct (notify_listening_completed c s update Hc Hcomp)
      as (u' & Hu' & ->).
    rewrite Hlast in Hu'. injection Hu' as <-.
    apply (notify_all_not_subscribed after). reflexivity.
  - cbn in Hq. apply andb_true_iff in Hq as [Hv Hq].
    apply negb_true_iff in Hv.
    cbn [app notify_all]. rewrite (notify_listening_quiet c s v Hc Hv).
    now apply IH.
Qed.

Lemma first_completed_is_final_witness :
  let step := {| Update.st := Update.step; Update.interaction_id := "x1";
                 Update.data_message := "" |} in
  fst (notify_all ([[step]] ++ [step; Scenario.done "x1"]
                     :: [[Scenario.done "x9"]])
         (Scenario.started_with "x1" Scenario.quiet))
  = {| response := "Done"; subscription := not_subscribed |}.
Proof.
  intros step.
  apply (first_completed_is_final
           {| response := ""; subscription := listening |} Scenario.quiet
           [[step]] [[Scenario.done "x9"]] [step; Scenario.done "x1"]
           (Scenario.done "x1")); reflexivity.
Defined.

Lemma notify_stalled c s update :
  subscription c = stalled ->
  notify update (c, s) = (c, {| turn := turn s; updates := update |}).
Proof.
  intros H. unfold notify. now rewrite H.
Qed.

Lemma notify_all_stalled values c s :
  subscription c = stalled ->
  fst (notify_all values (c, s)) = c
  /\ turn (snd (notify_all values (c, s))) = turn s.
Proof.
  intros H. revert s.
  induction values as [|v values IH]; intros s; [now split|].
  cbn [notify_all]. rewrite (notify_stalled c s v H).
  apply (IH {| turn := turn s; updates := v |}).
Qed.

Lemma notify_without_handle_quiet c s update :
  subscription c = listening_without_handle -> completes update = false ->
  notify update (c, s) = (c, {| turn := turn s; updates := update |}).
Proof.
  intros Hc Hq. unfold notify, callback. rewrite Hc, Hq.
  unfold completes in Hq.
  destruct (lastUpdate update) as [u|]; [|reflexivity].
  destruct (Update.st u); try reflexivity. discriminate.
Qed.

Lemma notify_without_handle_completed c s update u :
  subscription c = listening_without_handle ->
  lastUpdate update = Some u -> Update.st u = Update.completed ->
  notify update (c, s)
  = ({| response := Update.data_message u; subscription := stalled |},
     {| turn := turn s; updates := update |}).
Proof.
  intros Hc Hlast Hdone. unfold notify, callback, completes.
  now rewrite Hc, Hlast, Hdone.
Qed.

Lemma notify_all_without_handle values c s :
  subscription c = listening_without_handle ->
  turn (snd (notify_all values (c, s))) = turn s
  /\ (subscription (fst (notify_all values (c, s)))
      = listening_without_handle
      \/ subscription (fst (notify_all values (c, s))) = stalled).
Proof.
  revert c s. induction values as [|v values IH]; intros c s Hc;
    [split; [reflexivity | now left]|].
  cbn [notify_all].
  destruct (completes v) eqn:Ev.
  - unfold completes in Ev.
    destruct (lastUpdate v) as [u|] eqn:El; [|discriminate].
    destruct (Update.st u) eqn:Es; try discriminate.
    rewrite (notify_without_handle_completed c s v u Hc El Es).
    destruct (notify_all_stalled values
                {| response := Update.data_message u;
                   subscription := stalled |}
                {| turn := turn s; updates := v |} eq_refl) as [H1 H2].
    split; [exact H2|]. right. now rewrite H1.
  - rewrite (notify_without_handle_quiet c s v Hc Ev).
    apply (IH c {| turn := turn s; updates := v |} Hc).
Qed.

(** A message that starts while [updates] still ends with a completed
    update takes the message of that old update as its response at
    once and leaves [turn] and [updates] as they are.  Its subscription
    has no handle: whatever arrives later, it is never ended, the
    message is never Started, and [turn] is never set to [idle].
    Values that do not complete change nothing; the first later value
    that ends with a completed update still gives its message to the
    response, and then [unsubscribe()] throws inside [updates.set]:
    from there on no callback runs and the response stays. *)
Theorem started_on_stale_update (id : string) (s : Stores) (u : Update.t) :
  lastUpdate (updates s) = Some u ->
  Update.st u = Update.completed ->
  let started :=
    onMount_resume
      (Some {| Outcome.st := Outcome.started; Outcome.message := id |})
      (fresh, s) in
  started = ({| response := Update.data_message u;
                subscription := listening_without_handle |}, s)
  /\ (forall values,
      turn (snd (notify_all values started)) = turn s
      /\ is_started (fst (notify_all values started)) = false
      /\ subscription (fst (notify_all values started)) <> not_subscribed)
  /\ (forall values,
      forallb (fun v => negb (completes v)) values = true ->
      fst (notify_all values started) = fst started)
  /\ (forall before update u' after,
      forallb (fun v => negb (completes v)) before = true ->
      lastUpdate update = Some u' ->
      Update.st u' = Update.completed ->
      fst (notify_all (before ++ update :: after) started)
      = {| response := Update.data_message u'; subscription := stalled |}).
Proof.
  intros Hlast Hdone started.
  assert (E : started = ({| response := Update.data_message u;
                            subscription := listening_without_handle |}, s)).
  { unfold started, onMount_resume, subscribe, callback, completes.
    cbn [Outcome.st Outcome.message]. rewrite Hlast, Hdone. reflexivity. }
  rewrite E. clear E started Hlast Hdone.
  set (c := {| response := Update.data_message u;
               subscription := listening_without_handle |}).
  assert (Hc : subscription c = listening_without_handle) by reflexivity.
  clearbody c.
  split; [reflexivity|]. split; [|split].
  - intros values.
    destruct (notify_all_without_handle values c s Hc) as [Ht Hs].
    split; [exact Ht|]. unfold is_started.
    destruct Hs as [Hs|Hs]; rewrite Hs; split; try reflexivity; discriminate.
  - intros values. revert s.
    induction values as [|v values IH]; intros s0 Hq; [reflexivity|].
    cbn in Hq. apply andb_true_iff in Hq as [Hv Hq].
    apply negb_true_iff in Hv.
    cbn [notify_all]. rewrite (notify_without_handle_quiet c s0 v Hc Hv).
    exact (IH {| turn := turn s0; updates := v |} Hq).
  - intros before. revert s.
    induction before as [|v before IH]; intros s0 update u' after Hq Hl Hd.
    + cbn [app notify_all].
      rewrite (notify_without_handle_completed c s0 update u' Hc Hl Hd).
      apply (notify_all_stalled after). reflexivity.
    + cbn in Hq. apply andb_true_iff in Hq as [Hv Hq].
      apply negb_true_iff in Hv.
      cbn [app notify_all]. rewrite (notify_without_handle_quiet c s0 v Hc Hv).
      now apply IH.
Qed.

Lemma started_on_stale_update_witness :
  let stale := {| turn := Store.running;
                  updates := [Scenario.done "x1"] |} in
  let second := {| Update.st := Update.completed;
                   Update.interaction_id := "x2";
                   Update.data_message := "Second" |} in
  let third := {| Update.st := Update.completed;
                  Update.interaction_id := "x2";
                  Update.data_message := "Third" |} in
  let started :=
    onMount_resume
      (Some {| Outcome.st := Outcome.started; Outcome.message := "x2" |})
      (fresh, stale) in
  started
  = ({| response := "Done"; subscription := listening_without_handle |},
     stale)
  /\ fst (notify_all ([[]] ++ [second] :: [[third]]) started)
     = {| response := "Second"; subscription := stalled |}.
Proof.
  intros stale second third started.
  destruct (started_on_stale_update "x2" stale (Scenario.done "x1")
              eq_refl eq_refl) as (H1 & _ & _ & H4).
  split; [exact H1|].
  apply (H4 [[]] [second] second [[third]]); reflexivity.
Defined.

End MessageFacts.

(** ** What mounting a message does, command by command *)

Module MountFacts.

Import AgentMessage.

(** A message mounted for the [prompt] or the [get_actions] command
    never resolves: [prompt] comes back with [undefined] whatever the
    prompt and the answer of the server, [get_actions] with a status
    that [onMount] does not know.  The component keeps its state, shows
    no response, does not listen for updates, and [turn] is not set
    back to [idle]; of the two only [prompt] touches the store, with
    what [browserStore.runAgent] does. *)
Theorem prompt_and_get_actions_never_resolve (content : string)
        (res : Store.Fetched) (w : Store.World) (c : Component)
        (s : Stores) :
  onMount Commands.prompt content res w (c, s)
  = (fst (Store.runAgent content res w), (c, s))
  /\ onMount Commands.get_actions content res w (c, s) = (w, (c, s))
  /\ snd (Commands.runAgent content res w) = None.
Proof.
  unfold onMount, Commands.prompt, Commands.get_actions, Commands.runAgent.
  cbn [Commands.onSend].
  unfold Store.runAgent.
  destruct (Js.truthy content); repeat split.
Qed.

(** A message mounted for the [goto] command resolves as soon as the
    address has a valid host name, whatever the navigate call gives:
    the response is ["Navigated to "] and the address and [turn] goes
    to [idle] also when the call failed, in which case the log and the
    toast say that the navigation failed.  With no valid host name the
    component and [turn] stay as they are. *)
Theorem goto_resolves_whatever_the_call_gives
        (parseURL : string -> option Commands.URL) (content : string)
        (res : Store.Fetched) (error : string) (w : Store.World)
        (c : Component) (s : Stores) :
  (Commands.hostname_ok parseURL (Commands.processed content) = true ->
   snd (onMount (Commands.goto parseURL) content res w (c, s))
   = ({| response := "Navigated to " ++ Commands.processed content;
         subscription := subscription c |},
      {| turn := Store.idle; updates := updates s |})
   /\ Store.messages
        (fst (onMount (Commands.goto parseURL) content
                (Store.Rejected error) w (c, s)))
      = Store.messages w ++ [("Failed to navigate - " ++ error)%string]
   /\ Store.toasts
        (fst (onMount (Commands.goto parseURL) content
                (Store.Rejected error) w (c, s)))
      = Store.toasts w
        ++ [Store.toast_error ("Failed to navigate - " ++ error)])
  /\ (Commands.hostname_ok parseURL (Commands.processed content) = false ->
      snd (onMount (Commands.goto parseURL) content res w (c, s)) = (c, s)).
Proof.
  unfold onMount, Commands.goto, Commands.hostname_ok.
  cbn [Commands.onSend]. unfold Commands.navigateToURL.
  destruct (parseURL (Commands.processed content)) as [u|].
  - split; intros ->.
    + split; [reflexivity|].
      unfold Store.navigateToUrl.
      rewrite NavigateFacts.processed_truthy.
      split; reflexivity.
    + reflexivity.
  - split; [discriminate | reflexivity].
Qed.

Lemma goto_resolves_whatever_the_call_gives_witness :
  Commands.hostname_ok Commands.plainURL (Commands.processed "example.com")
  = true
  /\ snd (onMount (Commands.goto Commands.plainURL) "example.com"
            (Store.Rejected "TypeError: Failed to fetch") Store.init
            (fresh, Scenario.quiet))
     = ({| response := "Navigated to https://example.com";
           subscription := not_subscribed |},
        {| turn := Store.idle; updates := [] |})
  /\ Commands.hostname_ok Commands.plainURL (Commands.processed "hello")
     = false
  /\ snd (onMount (Commands.goto Commands.plainURL) "hello"
            (Store.Resolved "ok") Store.init (fresh, Scenario.quiet))
     = (fresh, Scenario.quiet).
Proof.
  pose proof (goto_resolves_whatever_the_call_gives
                Commands.plainURL "example.com"
                (Store.Rejected "TypeError: Failed to fetch") ""
                Store.init fresh Scenario.quiet) as [Hok _].
  pose proof (goto_resolves_whatever_the_call_gives
                Commands.plainURL "hello" (Store.Resolved "ok") ""
                Store.init fresh Scenario.quiet) as [_ Hbad].
  split; [reflexivity|].
  split; [apply Hok; reflexivity|].
  split; [reflexivity|].
  apply Hbad; reflexivity.
Defined.

End MountFacts.

(** ** The input component over a run of events *)

Module PaletteFacts.

Import Input.

Lemma truthy_nonempty s : Js.truthy s = true -> s <> "".
Proof.
  destruct s; [discriminate | intros _ H; discriminate].
Qed.

Lemma submitAction_some s a :
  snd (submitAction s) = Some a ->
  inputText s <> ""
  /\ (exists act, selectedAction s = Some act
                  /\ a = {| action := id act; value := inputText s |})
  /\ inputText (fst (submitAction s)) = ""
  /\ selectedAction (fst (submitAction s)) = None
  /\ showActions (fst (submitAction s)) = showActions s
  /\ actionsDialogOpen (fst (submitAction s)) = actionsDialogOpen s.
Proof.
  unfold submitAction.
  destruct (Js.truthy (inputText s)) eqn:Ht; [|discriminate].
  destruct (selectedAction s) as [act|]; [|discriminate].
  cbn. intros H. injection H as <-.
  split; [now apply truthy_nonempty|].
  split; [now exists act|]. repeat split.
Qed.

(** Every [action] event the component dispatches comes from the Send
    button or from the Enter key without Shift, while the component is
    not disabled, with a command chosen and a text that is not empty;
    it carries the [id] of that command and that text, and it leaves
    the text empty and no command chosen. *)
Theorem dispatch_is_a_submission (disabled : bool) (e : Event) (s : State)
        (a : ActionEvent) :
  snd (handle disabled e s) = Some a ->
  disabled = false
  /\ (e = click_send \/ e = keydown "Enter" false)
  /\ inputText s <> ""
  /\ (exists act, selectedAction s = Some act
                  /\ a = {| action := id act; value := inputText s |})
  /\ inputText (fst (handle disabled e s)) = ""
  /\ selectedAction (fst (handle disabled e s)) = None.
Proof.
  destruct e; cbn [handle].
  - destruct disabled; discriminate.
  - destruct disabled; [discriminate|].
    unfold handleKeydown.
    destruct (String.eqb key "Enter" && negb shiftKey) eqn:Hk;
      [|discriminate].
    apply andb_true_iff in Hk as [Hkey Hshift].
    apply String.eqb_eq in Hkey. subst key.
    apply negb_true_iff in Hshift. subst shiftKey.
    cbn [String.eqb Ascii.eqb Bool.eqb andb].
    destruct (Js.truthy (inputText s)); [|discriminate].
    intros H. destruct (submitAction_some s a H) as (H1 & H2 & H3 & H4 & _).
    repeat split; auto.
  - discriminate.
  - unfold send_disabled.
    destruct disabled.
    + rewrite !orb_true_r. discriminate.
    + rewrite orb_false_r.
      destruct (negb (Js.truthy (inputText s))
                || match selectedAction s with
                   | Some _ => false
                   | None => true
                   end); [discriminate|].
      intros H. destruct (submitAction_some s a H) as (H1 & H2 & H3 & H4 & _).
      repeat split; auto.
  - destruct (selectedAction s); discriminate.
  - discriminate.
  - destruct (showActions s); discriminate.
  - destruct (showActions s); discriminate.
Qed.

Lemma dispatch_is_a_submission_witness :
  snd (handle false click_send (Scenario.armed prompt "hello"))
  = Some {| action := "prompt"; value := "hello" |}
  /\ inputText (fst (handle false click_send (Scenario.armed prompt "hello")))
     = "".
Proof.
  split; [reflexivity|].
  apply (dispatch_is_a_submission false click_send
           (Scenario.armed prompt "hello")
           {| action := "prompt"; value := "hello" |}).
  reflexivity.
Defined.

Lemma handleInput_cases data s :
  handleInput data s = s
  \/ handleInput data s = with_palette true true s
  \/ handleInput data s = with_palette false false s.
Proof.
  unfold handleInput.
  destruct data as [[|[[] [] [] [] [] [] [] []] [|c r]]|]; cbn;
    try (rewrite andb_false_r; now left);
    try (rewrite andb_false_r; right; left; reflexivity);
    try (destruct (String.eqb (inputText s) "@"); cbn;
         [right; right; reflexivity | now left]);
    try (right; left; reflexivity).
Qed.

Lemma consistent_cases s s' :
  palette_consistent s ->
  s' = s \/ s' = with_palette true true s \/ s' = with_palette false false s ->
  palette_consistent s' /\ selectedAction s' = selectedAction s.
Proof.
  intros Hs [-> | [-> | ->]]; split; try reflexivity; try exact Hs;
    unfold palette_consistent; cbn; congruence.
Qed.

Lemma submitAction_consistent s :
  palette_consistent s -> palette_consistent (fst (submitAction s)).
Proof.
  intros Hs. unfold submitAction.
  destruct (Js.truthy (inputText s)), (selectedAction s); exact Hs.
Qed.

Lemma submitAction_keeps_choice s :
  snd (submitAction s) = None ->
  selectedAction (fst (submitAction s)) = selectedAction s.
Proof.
  unfold submitAction.
  destruct (Js.truthy (inputText s)), (selectedAction s) eqn:E;
    cbn; intros H; try discriminate; now rewrite E.
Qed.

Lemma handleKeydown_frame key shiftKey s :
  palette_consistent s ->
  palette_consistent (fst (handleKeydown key shiftKey s))
  /\ (snd (handleKeydown key shiftKey s) = None ->
      selectedAction (fst (handleKeydown key shiftKey s))
      = selectedAction s).
Proof.
  intros Hs. unfold handleKeydown.
  set (s1 := if String.eqb key "Escape" && showActions s
             then _ else s).
  assert (H1 : palette_consistent s1
               /\ selectedAction s1 = selectedAction s).
  { subst s1. destruct (String.eqb key "Escape" && showActions s).
    - split; [|reflexivity]. unfold palette_consistent. cbn. congruence.
    - now split. }
  destruct H1 as [Hc Hsel].
  destruct (String.eqb key "Enter" && negb shiftKey);
    [destruct (Js.truthy (inputText s1))|];
    try (split; [exact Hc | intros _; exact Hsel]).
  split; [now apply submitAction_consistent|].
  intros H. now rewrite (submitAction_keeps_choice s1 H).
Qed.

Lemma handle_consistent disabled e s :
  palette_consistent s -> palette_consistent (fst (handle disabled e s)).
Proof.
  intros Hs. destruct e; cbn [handle].
  - destruct disabled; [exact Hs|]. cbn [fst].
    refine (proj1 (consistent_cases _ _ _ (handleInput_cases data _))).
    exact Hs.
  - destruct disabled; [exact Hs|].
    now apply handleKeydown_frame.
  - cbn [fst]. unfold blur_timeout.
    destruct (actionsDialogOpen s); [exact Hs|].
    unfold palette_consistent. cbn. congruence.
  - destruct (send_disabled disabled s); [exact Hs|].
    now apply submitAction_consistent.
  - destruct (selectedAction s); exact Hs.
  - exact Hs.
  - destruct (showActions s) eqn:E; [|exact Hs].
    unfold palette_consistent. cbn. congruence.
  - destruct (showActions s) eqn:E; [|exact Hs].
    unfold palette_consistent. cbn. congruence.
Qed.

Lemma run_consistent es s :
  palette_consistent s -> palette_consistent (fst (run es s)).
Proof.
  revert s. induction es as [|[d e] es IH]; intros s Hs; [exact Hs|].
  cbn [run].
  pose proof (handle_consistent d e s Hs) as H1.
  destruct (handle d e s) as [s1 out]. cbn [fst] in H1.
  specialize (IH s1 H1).
  destruct (run es s1) as [s2 outs]. exact IH.
Qed.

(** In every state the component can be in, the palette is shown only
    while its dialog flag is up, so the function [handleBlur] hands to
    [setTimeout] changes nothing when it runs: it closes the palette
    only when the dialog flag is down, and then the palette is closed
    already. *)
Theorem blur_never_closes_the_palette (es : list (bool * Event)) :
  palette_consistent (fst (run es init))
  /\ blur_timeout (fst (run es init)) = fst (run es init).
Proof.
  assert (H : palette_consistent (fst (run es init))).
  { apply run_consistent. unfold palette_consistent. cbn. congruence. }
  split; [exact H|].
  unfold blur_timeout.
  destruct (fst (run es init)) as [t sa sel dl ks].
  unfold palette_consistent in H. cbn in *.
  destruct dl; [reflexivity|].
  destruct sa; [|reflexivity].
  specialize (H eq_refl). discriminate.
Qed.

Lemma handle_budget disabled e s :
  match snd (handle disabled e s) with Some _ => 1 | None => 0 end
  + chosen (fst (handle disabled e s))
  <= match e with select_item _ => 1 | _ => 0 end + chosen s.
Proof.
  assert (Hsub : match snd (submitAction s) with Some _ => 1 | None => 0 end
                 + chosen (fst (submitAction s)) <= chosen s).
  { unfold submitAction, chosen.
    destruct (Js.truthy (inputText s)), (selectedAction s) eqn:E; cbn;
      rewrite ?E; auto. }
  destruct e; cbn [handle].
  - destruct disabled; cbn [fst snd]; [apply Nat.le_refl|].
    unfold chosen.
    destruct (handleInput_cases data
                {| inputText := text; showActions := showActions s;
                   selectedAction := selectedAction s;
                   actionsDialogOpen := actionsDialogOpen s;
                   showKeyboardShortcuts := showKeyboardShortcuts s |})
      as [-> | [-> | ->]]; apply Nat.le_refl.
  - destruct disabled; cbn [fst snd]; [apply Nat.le_refl|].
    unfold handleKeydown.
    set (s1 := if String.eqb key "Escape" && showActions s
               then _ else s).
    assert (E1 : selectedAction s1 = selectedAction s
                 /\ inputText s1 = inputText s).
    { subst s1. destruct (String.eqb key "Escape" && showActions s);
        now split. }
    destruct E1 as [Esel Etext].
    assert (Hs1 : match snd (submitAction s1) with Some _ => 1 | None => 0 end
                  + chosen (fst (submitAction s1)) <= chosen s).
    { unfold submitAction, chosen. rewrite Esel.
      destruct (Js.truthy (inputText s1)), (selectedAction s) eqn:E; cbn;
        rewrite ?Esel, ?E; auto. }
    destruct (String.eqb key "Enter" && negb shiftKey);
      [destruct (Js.truthy (inputText s1))|];
      try exact Hs1; cbn [fst snd]; unfold chosen; rewrite Esel;
      apply Nat.le_refl.
  - cbn [fst snd]. unfold blur_timeout, chosen.
    destruct (actionsDialogOpen s); apply Nat.le_refl.
  - destruct (send_disabled disabled s); [apply Nat.le_refl | exact Hsub].
  - unfold chosen. destruct (selectedAction s) eqn:E; cbn; rewrite ?E; auto.
  - apply Nat.le_refl.
  - unfold chosen.
    destruct (showActions s); cbn; destruct (selectedAction s); auto.
  - destruct (showActions s); apply Nat.le_refl.
Qed.

Lemma run_budget es s :
  length (snd (run es s)) + chosen (fst (run es s))
  <= selections es + chosen s.
Proof.
  revert s. induction es as [|[d e] es IH]; intros s; [apply Nat.le_refl|].
  cbn [run].
  pose proof (handle_budget d e s) as H1.
  destruct (handle d e s) as [s1 out]. cbn [fst snd] in H1.
  specialize (IH s1).
  destruct (run es s1) as [s2 outs]. cbn [fst snd] in IH |- *.
  assert (Hsel : selections ((d, e) :: es)
                 = match e with select_item _ => 1 | _ => 0 end
                   + selections es)
    by (destruct e; reflexivity).
  rewrite Hsel.
  destruct out; cbn [length]; lia.
Qed.

(** One choice, one submission.  A dispatch uses up the chosen command,
    and only picking an item of the palette chooses one: in every run
    from the initial state the component dispatches at most as many
    actions as commands were picked. *)
Theorem dispatches_bounded_by_selections (es : list (bool * Event)) :
  length (snd (run es init)) <= selections es.
Proof.
  pose proof (run_budget es init) as H.
  cbn [chosen init selectedAction] in H. lia.
Qed.

End PaletteFacts.

(** ** The page over a run of events *)

Module PageFacts.

Import Store Panel.

(** *** The log *)

Lemma logged_refl w : logged w w.
Proof.
  exists [], []. rewrite !app_nil_r. repeat split. constructor.
Qed.

Lemma logged_trans w1 w2 w3 : logged w1 w2 -> logged w2 w3 -> logged w1 w3.
Proof.
  intros (ms1 & ts1 & Hm1 & Ht1 & Hf1) (ms2 & ts2 & Hm2 & Ht2 & Hf2).
  exists (ms1 ++ ms2), (ts1 ++ ts2).
  rewrite Hm2, Hm1, Ht2, Ht1, !app_assoc. repeat split.
  apply Forall_app. split.
  - eapply Forall_impl; [|exact Hf1]. intros t Ht. apply in_or_app. now left.
  - eapply Forall_impl; [|exact Hf2]. intros t Ht. apply in_or_app. now right.
Qed.

Lemma logged_frame w w' :
  messages w' = messages w -> toasts w' = toasts w -> logged w w'.
Proof.
  intros Hm Ht. exists [], []. rewrite !app_nil_r. repeat split; auto.
Qed.

Lemma logged_addMessage from message error w :
  logged w (addMessage from message error w).
Proof.
  destruct from.
  - exists [message], [if error then toast_error message
                       else toast_success message].
    destruct error; repeat split; repeat constructor; reflexivity.
  - exists [message], []. repeat split; [now rewrite app_nil_r | constructor].
  - exists [message], []. repeat split; [now rewrite app_nil_r | constructor].
Qed.

Ltac then_logged H := eapply logged_trans; [apply H|].

Lemma logged_close i w : logged w (close i w).
Proof.
  unfold close. destruct (readyState w i) as [[]|];
    now apply logged_frame.
Qed.

Lemma logged_connect w : logged w (connectWebSocket w).
Proof.
  unfold connectWebSocket. destruct (socket_is_open w);
    [apply logged_refl | now apply logged_frame].
Qed.

Lemma logged_disconnect w : logged w (disconnectWebSocket w).
Proof.
  unfold disconnectWebSocket.
  set (w1 := match socket w with
             | Some i => set_socket None (close i w)
             | None => w
             end).
  assert (H1 : logged w w1).
  { subst w1. destruct (socket w) as [i|]; [|apply logged_refl].
    then_logged (logged_close i). now apply logged_frame. }
  eapply logged_trans; [exact H1|].
  destruct (pingInterval w1); now apply logged_frame.
Qed.

Lemma logged_ping_tick w : logged w (ping_tick w).
Proof.
  unfold ping_tick.
  destruct (socket_is_open w), (socket w), (pingInterval w);
    try apply logged_refl; now apply logged_frame.
Qed.

Lemma logged_onopen w : logged w (onopen w).
Proof.
  unfold onopen.
  eapply logged_trans; [apply (logged_frame w (set_connected true w));
                        reflexivity|].
  eapply logged_trans;
    [apply (logged_addMessage System "Connected to server" false)|].
  now apply logged_frame.
Qed.

Lemma logged_onclose w : logged w (onclose w).
Proof.
  unfold onclose. cbn. destruct (pingInterval w); now apply logged_frame.
Qed.

Lemma logged_deliver i e w : logged w (deliver i e w).
Proof.
  unfold deliver.
  destruct e as [|f| | |], (readyState w i) as [[]|];
    try apply logged_refl;
    try apply logged_addMessage;
    try (now apply logged_frame);
    try (eapply logged_trans; [|apply logged_onopen];
         now apply logged_frame);
    try (eapply logged_trans; [|apply logged_onclose];
         now apply logged_frame).
  destruct f; cbn; try apply logged_refl;
    try apply logged_addMessage; now apply logged_frame.
Qed.

Lemma logged_startBrowser res w : logged w (startBrowser res w).
Proof.
  unfold startBrowser, startBrowser_begin.
  eapply logged_trans;
    [apply (logged_frame w (issue browser_start
                              (set_isLoading true
                                 (set_browserStatus starting w))));
     reflexivity|].
  destruct res; cbn [startBrowser_settle].
  - then_logged (logged_addMessage System message false).
    now apply logged_frame.
  - then_logged (logged_addMessage System
                   ("Failed to start browser - " ++ error) true).
    now apply logged_frame.
Qed.

Lemma logged_stopBrowser res w : logged w (stopBrowser res w).
Proof.
  unfold stopBrowser, stopBrowser_begin.
  eapply logged_trans;
    [apply (logged_frame w (issue browser_stop
                              (set_browserStatus stopping w)));
     reflexivity|].
  destruct res; cbn [stopBrowser_settle].
  - then_logged (logged_addMessage System message false).
    now apply logged_frame.
  - then_logged (logged_addMessage System
                   ("Failed to stop browser - " ++ error) true).
    now apply logged_frame.
Qed.

Lemma logged_navigateToUrl url res w : logged w (navigateToUrl url res w).
Proof.
  unfold navigateToUrl, navigateToUrl_begin.
  destruct (Js.truthy url); [|apply logged_addMessage].
  eapply logged_trans;
    [apply (logged_frame w (issue (browser_navigate url)
                              (set_isLoading true w)));
     reflexivity|].
  destruct res; cbn [navigateToUrl_settle].
  - apply logged_addMessage.
  - then_logged (logged_addMessage System
                   ("Failed to navigate - " ++ error) true).
    now apply logged_frame.
Qed.

Lemma logged_runAgent prompt res w : logged w (fst (runAgent prompt res w)).
Proof.
  unfold runAgent.
  destruct (Js.truthy prompt); cbn [fst]; [|apply logged_addMessage].
  then_logged (logged_addMessage System
                 ("Running agent with prompt: " ++ prompt) false).
  set (w1 := addMessage System ("Running agent with prompt: " ++ prompt)
               false w).
  destruct res; cbn [runAgent_settle];
    (eapply logged_trans;
     [apply (logged_frame w1 (issue (agent_run prompt) w1)); reflexivity
     | apply logged_addMessage]).
Qed.

Lemma logged_setFps fps res w : logged w (setFps fps res w).
Proof.
  unfold setFps.
  eapply logged_trans;
    [apply (logged_frame w (issue (streaming_set_fps fps) w)); reflexivity|].
  destruct res; cbn [setFps_settle]; apply logged_addMessage.
Qed.

Lemma logged_handle e w : logged w (handle e w).
Proof.
  destruct e; cbn [handle].
  - then_logged logged_connect. apply logged_startBrowser.
  - then_logged logged_disconnect. apply logged_stopBrowser.
  - destruct (browserStatus w); try apply logged_refl;
      apply logged_startBrowser.
  - destruct (browserStatus w); try apply logged_refl;
      apply logged_stopBrowser.
  - destruct (is_running w); [now apply logged_frame | apply logged_refl].
  - destruct (is_running w);
      [apply logged_navigateToUrl | apply logged_refl].
  - destruct (is_running w); [now apply logged_frame | apply logged_refl].
  - destruct (is_running w); [apply logged_setFps | apply logged_refl].
  - destruct (is_running w); [now apply logged_frame | apply logged_refl].
  - destruct (is_running w); [apply logged_runAgent | apply logged_refl].
  - apply logged_deliver.
  - destruct (existsb (Pos.eqb h) (timers w));
      [apply logged_ping_tick | apply logged_refl].
Qed.

(** The log is append-only.  Whatever happens to the page -- clicks,
    REST outcomes, frames and closes of the channel, keepalive ticks --
    the entries of [messages] that were there stay, in their order, and
    new ones go to the end; the same holds of the toasts, and every
    toast that was added has its text in a log entry that was added
    with it. *)
Theorem log_is_append_only (es : list Event) (w : World) :
  exists ms ts,
    messages (run es w) = messages w ++ ms
    /\ toasts (run es w) = toasts w ++ ts
    /\ Forall (fun t => In (toast_text t) ms) ts.
Proof.
  change (logged w (run es w)).
  revert w. induction es as [|e es IH]; intros w; [apply logged_refl|].
  cbn [run fold_left].
  eapply logged_trans; [apply (logged_handle e)|]. apply IH.
Qed.

(** *** The channel *)

Lemma same_channel_refl w : same_channel w w.
Proof.
  repeat split.
Qed.

Lemma same_channel_trans w1 w2 w3 :
  same_channel w1 w2 -> same_channel w2 w3 -> same_channel w1 w3.
Proof.
  unfold same_channel. intros (A1 & A2 & A3 & A4 & A5 & A6)
                              (B1 & B2 & B3 & B4 & B5 & B6).
  repeat split; congruence.
Qed.

Lemma same_channel_addMessage from message error w :
  same_channel w (addMessage from message error w).
Proof.
  destruct from, error; repeat split.
Qed.

Lemma same_channel_startBrowser res w : same_channel w (startBrowser res w).
Proof.
  destruct res; repeat split.
Qed.

Lemma same_channel_stopBrowser res w : same_channel w (stopBrowser res w).
Proof.
  destruct res; repeat split.
Qed.

Lemma same_channel_navigateToUrl url res w :
  same_channel w (navigateToUrl url res w).
Proof.
  unfold navigateToUrl. destruct (Js.truthy url), res; repeat split.
Qed.

Lemma same_channel_runAgent prompt res w :
  same_channel w (fst (runAgent prompt res w)).
Proof.
  unfold runAgent. destruct (Js.truthy prompt), res; repeat split.
Qed.

Lemma same_channel_setFps fps res w : same_channel w (setFps fps res w).
Proof.
  destruct res; repeat split.
Qed.

Lemma same_channel_onmessage f w : same_channel w (onmessage f w).
Proof.
  destruct f; repeat split.
Qed.

Section ChannelInvariant.

Variable P : World -> Prop.

Hypothesis P_channel : forall w w', same_channel w w' -> P w -> P w'.
Hypothesis P_connect : forall w, P w -> P (connectWebSocket w).
Hypothesis P_disconnect : forall w, P w -> P (disconnectWebSocket w).
Hypothesis P_open :
  forall i w, readyState w i = Some CONNECTING -> P w ->
              P (onopen (set_sockets (set_nth i OPEN (sockets w)) w)).
Hypothesis P_closing :
  forall i w, readyState w i = Some OPEN -> P w ->
              P (set_sockets (set_nth i CLOSING (sockets w)) w).
Hypothesis P_close :
  forall i w, P w -> P (onclose (set_sockets (set_nth i CLOSED (sockets w)) w)).
Hypothesis P_tick : forall w, P w -> P (ping_tick w).

Lemma invariant_deliver i e w : P w -> P (deliver i e w).
Proof.
  intros Hw. unfold deliver.
  destruct e as [|f| | |], (readyState w i) as [[]|] eqn:E;
    try exact Hw;
    try (now apply P_open);
    try (now apply P_closing);
    try (now apply P_close);
    try (eapply P_channel; [|exact Hw];
         first [apply same_channel_onmessage
               | apply same_channel_addMessage]).
Qed.

Lemma invariant_handle e w : P w -> P (handle e w).
Proof.
  intros Hw. destruct e; cbn [handle].
  - eapply P_channel; [apply same_channel_startBrowser|].
    now apply P_connect.
  - eapply P_channel; [apply same_channel_stopBrowser|].
    now apply P_disconnect.
  - destruct (browserStatus w); try exact Hw;
      (eapply P_channel; [apply same_channel_startBrowser | exact Hw]).
  - destruct (browserStatus w); try exact Hw;
      (eapply P_channel; [apply same_channel_stopBrowser | exact Hw]).
  - destruct (is_running w); [|exact Hw].
    eapply P_channel; [|exact Hw]. repeat split.
  - destruct (is_running w); [|exact Hw].
    eapply P_channel; [apply same_channel_navigateToUrl | exact Hw].
  - destruct (is_running w); [|exact Hw].
    eapply P_channel; [|exact Hw]. repeat split.
  - destruct (is_running w); [|exact Hw].
    eapply P_channel; [apply same_channel_setFps | exact Hw].
  - destruct (is_running w); [|exact Hw].
    eapply P_channel; [|exact Hw]. repeat split.
  - destruct (is_running w); [|exact Hw].
    eapply P_channel; [apply same_channel_runAgent | exact Hw].
  - now apply invariant_deliver.
  - destruct (existsb (Pos.eqb h) (timers w)); [now apply P_tick | exact Hw].
Qed.

Lemma invariant_run es w : P w -> P (run es w).
Proof.
  revert w. induction es as [|e es IH]; intros w Hw; [exact Hw|].
  apply IH, invariant_handle, Hw.
Qed.

End ChannelInvariant.

Lemma nth_error_set_nth_other {A : Type} (l : list A) i j x :
  i <> j -> nth_error (set_nth i x l) j = nth_error l j.
Proof.
  revert i j. induction l as [|a l IH]; intros [|i] [|j] H; cbn;
    try reflexivity; try congruence.
  apply IH. congruence.
Qed.

Lemma nth_error_set_nth_same {A : Type} (l : list A) i x y :
  nth_error l i = Some y -> nth_error (set_nth i x l) i = Some x.
Proof.
  revert i. induction l as [|a l IH]; intros [|i] H; try discriminate.
  - reflexivity.
  - cbn in *. now apply IH.
Qed.




Lemma Forall_remove {A : Type} (dec : forall x y : A, {x = y} + {x <> y})
      (Q : A -> Prop) (x : A) (l : list A) :
  Forall Q l -> Forall Q (remove dec x l).
Proof.
  rewrite !Forall_forall. intros H y Hy.
  apply in_remove in Hy as [Hy _]. now apply H.
Qed.

Lemma timers_fresh_clearInterval h w :
  timers_fresh w -> timers_fresh (clearInterval h w).
Proof.
  unfold timers_fresh. cbn. apply Forall_remove.
Qed.

Lemma timers_fresh_run es : timers_fresh (run es init).
Proof.
  apply invariant_run.
  - intros w w' (_ & _ & _ & _ & Ht & Hs) H.
    unfold timers_fresh. now rewrite Ht, Hs.
  - intros w H. unfold connectWebSocket.
    destruct (socket_is_open w); exact H.
  - intros w H. unfold disconnectWebSocket.
    set (w1 := match socket w with
               | Some i => set_socket None (close i w)
               | None => w
               end).
    assert (H1 : timers_fresh w1).
    { subst w1. destruct (socket w) as [i|]; [|exact H].
      unfold close. destruct (readyState w i) as [[]|]; exact H. }
    destruct (pingInterval w1) as [h|]; [|exact H1].
    exact (timers_fresh_clearInterval h w1 H1).
  - intros i w _ H. unfold timers_fresh in *. cbn.
    apply Forall_app. split.
    + eapply Forall_impl; [|exact H]. intros h Hh. cbn in Hh. lia.
    + constructor; [lia | constructor].
  - intros i w _ H. exact H.
  - intros i w H. unfold onclose. cbn [pingInterval set_connected set_sockets].
    destruct (pingInterval w) as [h|]; [|exact H].
    unfold timers_fresh in *. cbn. now apply Forall_remove.
  - intros w H. unfold ping_tick.
    destruct (socket_is_open w), (socket w), (pingInterval w);
      try exact H; now apply timers_fresh_clearInterval.
  - constructor.
Qed.

Lemma in_remove_other (h h' : positive) l :
  h <> h' -> In h l -> In h (remove Pos.eq_dec h' l).
Proof.
  intros Hne Hin. now apply in_in_remove.
Qed.

(** A socket that opens while a keepalive is recorded leaks it.
    [onopen] arms a new interval and overwrites the handle without
    cancelling the interval it held; from then on [onclose] and
    [disconnectWebSocket] cancel the new interval only, and the old one
    stays armed. *)
Theorem second_open_leaks_the_keepalive (es : list Event) (h : positive)
        (i : nat) :
  let w := run es init in
  pingInterval w = Some h ->
  In h (timers w) ->
  readyState w i = Some CONNECTING ->
  let w1 := deliver i ev_open w in
  pingInterval w1 = Some (timer_seq w)
  /\ timer_seq w <> h
  /\ In h (timers w1)
  /\ In h (timers (disconnectWebSocket w1))
  /\ In h (timers (deliver i ev_close w1))
  /\ pingInterval (disconnectWebSocket w1) = None.
Proof.
  intros w Hp Hin Hi w1.
  assert (Hne : h <> timer_seq w).
  { pose proof (timers_fresh_run es) as Hf.
    unfold timers_fresh in Hf. rewrite Forall_forall in Hf.
    specialize (Hf h Hin). fold w in Hf. lia. }
  assert (E1 : w1 = onopen (set_sockets (set_nth i OPEN (sockets w)) w)).
  { unfold w1, deliver. now rewrite Hi. }
  assert (Hp1 : pingInterval w1 = Some (timer_seq w))
    by (rewrite E1; reflexivity).
  assert (Ht1 : timers w1 = timers w ++ [timer_seq w])
    by (rewrite E1; reflexivity).
  assert (Hin1 : In h (timers w1))
    by (rewrite Ht1; apply in_or_app; now left).
  split; [exact Hp1|]. split; [congruence|]. split; [exact Hin1|].
  split; [|split].
  - unfold disconnectWebSocket.
    set (w2 := match socket w1 with
               | Some j => set_socket None (close j w1)
               | None => w1
               end).
    assert (H2 : pingInterval w2 = pingInterval w1 /\ timers w2 = timers w1).
    { subst w2. destruct (socket w1) as [j|]; [|now split].
      destruct (ChannelFacts.close_frame j w1) as (_ & A & B & _).
      now split. }
    destruct H2 as [A B]. rewrite A, Hp1. cbn. rewrite B.
    now apply in_remove_other.
  - assert (Hr : readyState w1 i = Some OPEN).
    { rewrite E1. unfold readyState in *. cbn.
      exact (nth_error_set_nth_same _ _ OPEN _ Hi). }
    unfold deliver. rewrite Hr. unfold onclose.
    cbn [pingInterval set_connected set_sockets]. rewrite Hp1. cbn.
    now apply in_remove_other.
  - apply (ChannelFacts.disconnect_is_down w1).
Qed.

Lemma second_open_leaks_the_keepalive_witness :
  pingInterval (run Scenario.mounted_twice init) = Some 1%positive
  /\ readyState (run Scenario.mounted_twice init) 1 = Some CONNECTING
  /\ In 1%positive
        (timers (disconnectWebSocket
                   (deliver 1 ev_open (run Scenario.mounted_twice init)))).
Proof.
  split; [reflexivity|]. split; [reflexivity|].
  apply (second_open_leaks_the_keepalive Scenario.mounted_twice 1%positive 1).
  - reflexivity.
  - vm_compute. now left.
  - reflexivity.
Defined.

(** [onclose] does not ask which socket closed.  When a socket other
    than the one [socket] holds closes -- an earlier socket whose
    closing handshake ends after a new one has opened -- the
    connectivity flag goes off and the keepalive of the open socket is
    cancelled and forgotten, although that socket is still OPEN. *)
Theorem close_of_an_old_socket_hits_the_new_one (w : World) (i j : nat) :
  socket w = Some j ->
  i <> j ->
  readyState w j = Some OPEN ->
  readyState w i = Some CLOSING \/ readyState w i = Some OPEN
  \/ readyState w i = Some CONNECTING ->
  let w1 := deliver i ev_close w in
  socket_is_open w1 = true
  /\ connected w1 = false
  /\ pingInterval w1 = None
  /\ forall h, pingInterval w = Some h -> ~ In h (timers w1).
Proof.
  intros Hs Hij Hj Hi w1.
  assert (E1 : w1 = onclose (set_sockets (set_nth i CLOSED (sockets w)) w)).
  { unfold w1, deliver. destruct Hi as [Hi|[Hi|Hi]]; now rewrite Hi. }
  rewrite E1. clear E1 w1.
  set (w0 := set_sockets (set_nth i CLOSED (sockets w)) w).
  split; [|split; [|split]].
  - unfold socket_is_open, onclose.
    cbn [pingInterval set_connected].
    assert (A : readyState w0 j = Some OPEN).
    { unfold readyState, w0 in *. cbn.
      now rewrite nth_error_set_nth_other. }
    destruct (pingInterval w0); unfold readyState in *; cbn;
      fold w0; rewrite Hs; cbn in A; now rewrite A.
  - unfold onclose. cbn [pingInterval set_connected].
    destruct (pingInterval w0); reflexivity.
  - apply ChannelFacts.onclose_pingInterval.
  - intros h Hh. apply ChannelFacts.onclose_cancels. exact Hh.
Qed.

Lemma close_of_an_old_socket_hits_the_new_one_witness :
  socket Scenario.reconnected = Some 1
  /\ readyState Scenario.reconnected 0 = Some CLOSING
  /\ connected Scenario.reconnected = true
  /\ socket_is_open (deliver 0 ev_close Scenario.reconnected) = true
  /\ connected (deliver 0 ev_close Scenario.reconnected) = false.
Proof.
  pose proof (close_of_an_old_socket_hits_the_new_one
                Scenario.reconnected 0 1) as H.
  split; [reflexivity|]. split; [reflexivity|]. split; [reflexivity|].
  assert (G : socket_is_open (deliver 0 ev_close Scenario.reconnected) = true
              /\ connected (deliver 0 ev_close Scenario.reconnected) = false).
  { destruct H as (A & B & _).
    - reflexivity.
    - discriminate.
    - reflexivity.
    - left. reflexivity.
    - now split. }
  exact G.
Defined.

(** *** Calls, the loading flag and the phase *)

Lemma same_session_connect w : same_session w (connectWebSocket w).
Proof.
  unfold connectWebSocket. destruct (socket_is_open w); repeat split.
Qed.

Lemma same_session_disconnect w : same_session w (disconnectWebSocket w).
Proof.
  unfold disconnectWebSocket, close.
  destruct (socket w) as [i|]; cbn.
  - destruct (readyState w i) as [[]|]; cbn;
      destruct (pingInterval w); repeat split.
  - destruct (pingInterval w); repeat split.
Qed.

Lemma same_session_ping_tick w : same_session w (ping_tick w).
Proof.
  unfold ping_tick.
  destruct (socket_is_open w), (socket w), (pingInterval w); repeat split.
Qed.

Lemma same_session_onclose w : same_session w (onclose w).
Proof.
  unfold onclose. cbn. destruct (pingInterval w); repeat split.
Qed.

Lemma same_session_deliver i e w :
  (forall data url, e <> ev_message (Screenshot data url)) ->
  same_session w (deliver i e w).
Proof.
  intros Hne. unfold deliver.
  destruct e as [|f| | |], (readyState w i) as [[]|];
    try (repeat split; fail);
    try (apply (same_session_onclose
                  (set_sockets (set_nth i CLOSED (sockets w)) w))).
  destruct f; try (repeat split; fail). now destruct (Hne data url).
Qed.

Lemma requests_deliver i e w : requests (deliver i e w) = requests w.
Proof.
  unfold deliver.
  destruct e as [|f| | |], (readyState w i) as [[]|]; try reflexivity;
    try (destruct f; reflexivity);
    apply (same_session_onclose
             (set_sockets (set_nth i CLOSED (sockets w)) w)).
Qed.

(** While the browser is not running the page can only start or stop
    it.  In a state whose phase is not [running], no event posts to the
    navigate, run-agent or set-fps end points: an event leaves the list
    of calls as it is or adds one start or one stop call. *)
Theorem page_not_running_only_starts_or_stops (e : Event) (w : World) :
  is_running w = false ->
  requests (handle e w) = requests w
  \/ requests (handle e w) = requests w ++ [browser_start]
  \/ requests (handle e w) = requests w ++ [browser_stop].
Proof.
  intros Hrun. destruct e; cbn [handle]; rewrite ?Hrun; try now left.
  - right. left.
    destruct (same_session_connect w) as (Hr & _).
    rewrite <- Hr. destruct res; reflexivity.
  - right. right.
    destruct (same_session_disconnect w) as (Hr & _).
    rewrite <- Hr. destruct res; reflexivity.
  - destruct (browserStatus w); try (now left);
      right; left; destruct res; reflexivity.
  - destruct (browserStatus w); try (now left);
      right; right; destruct res; reflexivity.
  - left. apply requests_deliver.
  - left. destruct (existsb (Pos.eqb h) (timers w)); [|reflexivity].
    apply (same_session_ping_tick w).
Qed.

Lemma page_not_running_only_starts_or_stops_witness :
  is_running init = false
  /\ (requests (handle (click_apply (Resolved "ok")) init) = requests init
      \/ requests (handle (click_apply (Resolved "ok")) init)
         = requests init ++ [browser_start]
      \/ requests (handle (click_apply (Resolved "ok")) init)
         = requests init ++ [browser_stop]).
Proof.
  split; [reflexivity|].
  apply (page_not_running_only_starts_or_stops
           (click_apply (Resolved "ok")) init).
  reflexivity.
Defined.

Lemma isLoading_stopBrowser res w : isLoading (stopBrowser res w) = isLoading w.
Proof.
  destruct res; reflexivity.
Qed.

Lemma isLoading_runAgent prompt res w :
  isLoading (fst (runAgent prompt res w)) = isLoading w.
Proof.
  unfold runAgent. destruct (Js.truthy prompt), res; reflexivity.
Qed.

Lemma isLoading_setFps fps res w : isLoading (setFps fps res w) = isLoading w.
Proof.
  destruct res; reflexivity.
Qed.

(** The loading flag, once up, comes down in two ways only: a
    screenshot frame arrives, or a start or navigate call fails.  A
    start or a navigation that succeeds leaves it up until the next
    screenshot, and stopping the browser, running the agent, setting
    the rate, the other frames and the closing of the channel do not
    touch it. *)
Theorem loading_flag_cleared_only_by (e : Event) (w : World) :
  isLoading w = true ->
  isLoading (handle e w) = false ->
  (exists i data url, e = socket_event i (ev_message (Screenshot data url)))
  \/ (exists error,
        e = mount (Rejected error) \/ e = click_start (Rejected error)
        \/ e = click_navigate (Rejected error)).
Proof.
  intros Hup Hdown.
  destruct e; cbn [handle] in Hdown.
  - destruct res as [m|error]; [discriminate|].
    right. exists error. now left.
  - rewrite isLoading_stopBrowser in Hdown.
    destruct (same_session_disconnect w) as (_ & Hl & _). congruence.
  - destruct res as [m|error].
    + destruct (browserStatus w); cbn in Hdown; congruence.
    + right. exists error. right. now left.
  - destruct (browserStatus w); try congruence;
      rewrite isLoading_stopBrowser in Hdown; congruence.
  - destruct (is_running w); cbn in Hdown; congruence.
  - destruct res as [m|error].
    + destruct (is_running w); [|congruence].
      unfold navigateToUrl in Hdown.
      destruct (Js.truthy (urlInput w)); cbn in Hdown; congruence.
    + right. exists error. right. now right.
  - destruct (is_running w); cbn in Hdown; congruence.
  - destruct (is_running w); [|congruence].
    rewrite isLoading_setFps in Hdown. congruence.
  - destruct (is_running w); cbn in Hdown; congruence.
  - destruct (is_running w); [|congruence].
    rewrite isLoading_runAgent in Hdown. congruence.
  - destruct e as [|f| | |].
    + destruct (same_session_deliver i ev_open w) as (_ & Hl & _);
        [discriminate | congruence].
    + destruct f as [|data url|data| |type].
      * destruct (same_session_deliver i (ev_message Malformed) w)
          as (_ & Hl & _); [discriminate | congruence].
      * left. now exists i, data, url.
      * destruct (same_session_deliver i (ev_message (Message data)) w)
          as (_ & Hl & _); [discriminate | congruence].
      * destruct (same_session_deliver i (ev_message Pong) w)
          as (_ & Hl & _); [discriminate | congruence].
      * destruct (same_session_deliver i (ev_message (Other type)) w)
          as (_ & Hl & _); [discriminate | congruence].
    + destruct (same_session_deliver i ev_error w) as (_ & Hl & _);
        [discriminate | congruence].
    + destruct (same_session_deliver i ev_closing w) as (_ & Hl & _);
        [discriminate | congruence].
    + destruct (same_session_deliver i ev_close w) as (_ & Hl & _);
        [discriminate | congruence].
  - destruct (existsb (Pos.eqb h) (timers w)); [|congruence].
    destruct (same_session_ping_tick w) as (_ & Hl & _). congruence.
Qed.

Lemma loading_flag_cleared_only_by_witness :
  let w := handle (click_start (Resolved "Browser started")) init in
  let e := click_navigate (Rejected "TypeError") in
  isLoading w = true
  /\ isLoading (handle e w) = false
  /\ ((exists i data url,
         e = socket_event i (ev_message (Screenshot data url)))
      \/ (exists error,
            e = mount (Rejected error) \/ e = click_start (Rejected error)
            \/ e = click_navigate (Rejected error))).
Proof.
  intros w e.
  split; [reflexivity|]. split; [reflexivity|].
  apply (loading_flag_cleared_only_by e w); reflexivity.
Defined.

(** One call per request, and no second try.  Each of the five REST
    functions posts exactly once whatever the outcome -- and not at all
    when [navigateToUrl] gets an empty address or [runAgent] an empty
    prompt; a call that fails ends in one error toast that names the
    operation and the error, and nothing is posted again. *)
Theorem one_call_per_request (res : Fetched) (error : string)
        (url prompt : string) (fps : Z) (w : World) :
  requests (startBrowser res w) = requests w ++ [browser_start]
  /\ requests (stopBrowser res w) = requests w ++ [browser_stop]
  /\ requests (navigateToUrl url res w)
     = requests w ++ (if Js.truthy url then [browser_navigate url] else [])
  /\ requests (fst (runAgent prompt res w))
     = requests w ++ (if Js.truthy prompt then [agent_run prompt] else [])
  /\ requests (setFps fps res w) = requests w ++ [streaming_set_fps fps]
  /\ last (toasts (startBrowser (Rejected error) w)) (toast_success "")
     = toast_error ("Failed to start browser - " ++ error)
  /\ last (toasts (stopBrowser (Rejected error) w)) (toast_success "")
     = toast_error ("Failed to stop browser - " ++ error)
  /\ last (toasts (navigateToUrl url (Rejected error) w)) (toast_success "")
     = toast_error (if Js.truthy url then "Failed to navigate - " ++ error
                    else "Please enter a URL")
  /\ last (toasts (fst (runAgent prompt (Rejected error) w)))
          (toast_success "")
     = toast_error (if Js.truthy prompt then "Failed to run agent - " ++ error
                    else "Please enter a prompt")
  /\ last (toasts (setFps fps (Rejected error) w)) (toast_success "")
     = toast_error ("Failed to set FPS - " ++ error).
Proof.
  unfold navigateToUrl, runAgent.
  destruct res, (Js.truthy url), (Js.truthy prompt); cbn;
    rewrite ?app_nil_r, ?last_last, <- ?app_assoc, ?last_last;
    repeat split; rewrite ?app_assoc; apply last_last.
Qed.

End PageFacts.
